(** * Spiking-network core of [train.py]: quantizer, LIF update, surrogate
      estimator, quantized linear layer, input encoding and hex packing.

    Numbers.  The fixed-point pipeline (rounding, clipping, thresholding,
    the linear layer) is modelled over exact rationals [Q], so every
    definition below evaluates; the surrogate kernels of the backward pass
    need [exp], [sqrt] and [PI] and are modelled over the reals [R].
    Both are the arithmetic of the original without the rounding of its
    32-bit floats.  Where that rounding decides the result, in the sum of
    the LIF update, the code is given a second time over IEEE 754 binary32
    numbers (module [Float32]), with the standard library's specification
    of floating-point arithmetic.

    Tensors.  A tensor is its shape together with its elements in row-major
    order, as torch stores a contiguous tensor.  Element-wise operations
    with a scalar map over the elements; element-wise operations between two
    tensors need equal shapes here (torch's broadcasting between different
    shapes is not modelled: such a call is reported as [RuntimeError]). *)

From Stdlib Require Import String Ascii.
From Stdlib Require Import Reals.
From Stdlib Require Import QArith Qround Qminmax Qabs Qpower ZArith List Lia Psatz Bool.
From Stdlib Require DecimalString HexadecimalString.
From Stdlib Require Import SpecFloat.
Import ListNotations.

(* ------------------------------------------------------------------ *)
(** ** Outcomes of a Python call *)
(* ------------------------------------------------------------------ *)

(** The exceptions that matter below.  [ConfigurationError] is the error
    kind the specification names for an unknown surrogate mode; no path of
    [train.py] raises it. *)
Inductive exception : Type :=
  | RuntimeError
  | IndexError
  | ValueError
  | ConfigurationError.

Inductive result (A : Type) : Type :=
  | Ok (a : A)
  | Raise (e : exception).

Arguments Ok {A} a.
Arguments Raise {A} e.

Definition bind {A B : Type} (r : result A) (k : A -> result B) : result B :=
  match r with
  | Ok a => k a
  | Raise e => Raise e
  end.

Notation "x <- r ;; k" := (bind r (fun x => k))
  (at level 61, r at next level, right associativity).

(* ------------------------------------------------------------------ *)
(** ** Tensors *)
(* ------------------------------------------------------------------ *)

Record tensor (A : Type) : Type := mkTensor {
  shape : list nat;
  values : list A
}.

Arguments mkTensor {A} shape values.
Arguments shape {A} t.
Arguments values {A} t.

(** Number of elements a shape announces. *)
Definition numel (s : list nat) : nat := fold_right Nat.mul 1%nat s.

(** A tensor holds as many elements as its shape announces. *)
Definition well_shaped {A : Type} (t : tensor A) : Prop :=
  length (values t) = numel (shape t).

Definition shape_eqb (s1 s2 : list nat) : bool :=
  if list_eq_dec Nat.eq_dec s1 s2 then true else false.

(** [t.size(i)]: raises [IndexError] when [i] is not a dimension of [t]. *)
Definition size {A : Type} (t : tensor A) (i : nat) : result nat :=
  match nth_error (shape t) i with
  | Some d => Ok d
  | None => Raise IndexError
  end.

(** Element-wise operation with scalars only. *)
Definition tmap {A B : Type} (f : A -> B) (t : tensor A) : tensor B :=
  mkTensor (shape t) (map f (values t)).

Fixpoint zip_with {A B C : Type} (f : A -> B -> C) (l1 : list A) (l2 : list B)
  : list C :=
  match l1, l2 with
  | a :: l1', b :: l2' => f a b :: zip_with f l1' l2'
  | _, _ => []
  end.

(** Element-wise operation between two tensors of one shape. *)
Definition tzip {A B C : Type} (f : A -> B -> C) (a : tensor A) (b : tensor B)
  : result (tensor C) :=
  if shape_eqb (shape a) (shape b)
  then Ok (mkTensor (shape a) (zip_with f (values a) (values b)))
  else Raise RuntimeError.

(** [torch.zeros(d0, d1, ...)]. *)
Definition zeros (dims : list nat) : tensor Q :=
  mkTensor dims (repeat 0%Q (numel dims)).

(** [t[:, i, :]] on a tensor of three dimensions [(d0, d1, d2)]: row [i] of
    the middle axis for every index of the first axis. *)
Definition select_middle {A : Type} (t : tensor A) (i : nat) : result (tensor A) :=
  match shape t with
  | [d0; d1; d2] =>
      if (i <? d1)%nat
      then Ok (mkTensor [d0; d2]
                 (flat_map (fun b => firstn d2 (skipn ((b * d1 + i) * d2) (values t)))
                           (seq 0 d0)))
      else Raise IndexError
  | _ => Raise IndexError
  end.

(* ------------------------------------------------------------------ *)
(** ** Fixed-point arithmetic over [Q] *)
(* ------------------------------------------------------------------ *)

Section FixedPoint.
Local Open Scope Q_scope.

(** [torch.round] on one element: nearest integer, ties to the even one. *)
Definition round_half_even (q : Q) : Z :=
  let f := Qfloor q in
  match Qcompare (q - inject_Z f) (1 # 2) with
  | Lt => f
  | Gt => (f + 1)%Z
  | Eq => if Z.even f then f else (f + 1)%Z
  end.

Definition round (q : Q) : Q := inject_Z (round_half_even q).

(** [torch.clip(x, lo, hi)] on one element: [min(max(x, lo), hi)]. *)
Definition clip (x lo hi : Q) : Q := Qmin (Qmax x lo) hi.

(** Strict comparison as a boolean, [x > c]. *)
Definition Qgtb (x c : Q) : bool := negb (Qle_bool x c).

(** Module constants of [train.py], lines 75-78. *)
Definition thresh : Q := 0.875.
Definition decay : Q := 0.5.

(** [Quantize(tensor, n_bit)], lines 134-136.  [2 ** (n_bit - 2)] is an
    integer power for [n_bit >= 2] and the exact reciprocal power below.
    The definition is the code for the bit widths 2 to 129, where the
    scale [float(2 ** (n_bit - 2))] is a float32 number and scaling by it
    rounds nothing; from 130 on the scale is not a finite float32 (the
    original then returns NaN, and [float] raises [OverflowError] from 1026
    on), which this definition does not describe.  The properties of
    [Quantize] below are stated at 16 bits or for widths from 2 to 129. *)
Definition Quantize (t : tensor Q) (n_bit : Z) : tensor Q :=
  let n := Qpower 2 (n_bit - 2) in
  tmap (fun v => clip v (- 1.99993896484375) 1.99993896484375)
    (tmap (fun v => v / n)
       (tmap round
          (tmap (fun v => v * n) t))).

(** [Binarize(tensor)], lines 139-140. *)
Definition Binarize (t : tensor Q) : tensor Q := Quantize t 16.

End FixedPoint.

(* ------------------------------------------------------------------ *)
(** ** Surrogate estimator [AcFun_adp] (lines 75-112) *)
(* ------------------------------------------------------------------ *)

Section SurrogateConstants.
Local Open Scope R_scope.

(** Module constants of [train.py], lines 75 and 78. *)
Definition lens : R := 0.5.
Definition gamma : R := 0.5.

(** [gaussian(x, mu, sigma)], lines 81-82, element-wise on a tensor. *)
Definition gaussian (x : tensor R) (mu sigma : R) : tensor R :=
  tmap (fun v => exp (- ((v - mu) ^ 2) / (2 * sigma ^ 2)) / sqrt (2 * PI) / sigma) x.

End SurrogateConstants.

(** The autograd context: what [ctx.save_for_backward] stored. *)
Record ctx (A : Type) : Type := mkCtx { saved_tensors : list (tensor A) }.

Arguments mkCtx {A} saved_tensors.
Arguments saved_tensors {A} c.

Module AcFun_adp.
Section Forward.
Local Open Scope Q_scope.

(** [input.gt(0)]: a tensor of booleans. *)
Definition gt (input : tensor Q) (c : Q) : tensor bool :=
  tmap (fun v => Qgtb v c) input.

(** [.float()] on a tensor of booleans. *)
Definition float (t : tensor bool) : tensor Q :=
  tmap (fun b : bool => if b then 1 else 0) t.

Definition forward (input : tensor Q) : ctx Q * tensor Q :=
  (mkCtx [input], float (gt input 0)).

End Forward.

Section Backward.
Local Open Scope R_scope.

(** [F.relu]. *)
Definition relu (t : tensor R) : tensor R := tmap (fun v => Rmax v 0) t.

(** [backward(ctx, grad_output)], lines 91-112, for the module-level
    [surroguate_type] given as first argument.  [input, = ctx.saved_tensors]
    unpacks a one-element tuple; [grad_output.clone()] and [temp.float()]
    copy values. *)
Definition backward (surroguate_type : string) (c : ctx R) (grad_output : tensor R)
  : result (tensor R) :=
  match saved_tensors c with
  | [input] =>
      let grad_input := grad_output in
      let scale := 6.0 in
      let height := 0.15 in
      temp <-
        (if String.eqb surroguate_type "G" then
           Ok (tmap (fun v => exp (- (v ^ 2) / (2 * lens ^ 2)) / sqrt (2 * PI) / lens)
                 input)
         else if String.eqb surroguate_type "MG" then
           d <- tzip Rminus
                  (tmap (fun v => v * (1.0 + height)) (gaussian input 0 lens))
                  (tmap (fun v => v * height) (gaussian input lens (scale * lens))) ;;
           tzip Rminus d
             (tmap (fun v => v * height) (gaussian input (- lens) (scale * lens)))
         else if String.eqb surroguate_type "linear" then
           Ok (relu (tmap (fun v => 1 - v) (tmap Rabs input)))
         else if String.eqb surroguate_type "slayer" then
           Ok (tmap exp (tmap (fun v => -5 * v) (tmap Rabs input)))
         else if String.eqb surroguate_type "sigmoid" then
           tzip Rdiv (tmap exp (tmap Ropp input))
             (tmap (fun v => v ^ 2) (tmap (fun v => 1 + v) (tmap exp (tmap Ropp input))))
         else
           Ok (tmap exp (tmap Ropp (tmap Rabs input)))) ;;
      g <- tzip Rmult grad_input temp ;;
      Ok (tmap (fun v => v * gamma) g)
  | _ => Raise ValueError
  end.

End Backward.
End AcFun_adp.

(** [act_fun_adp = AcFun_adp.apply]: the forward value of a fresh context. *)
Definition act_fun_adp (input : tensor Q) : tensor Q :=
  snd (AcFun_adp.forward input).

(* ------------------------------------------------------------------ *)
(** ** [LIF_mem_update] (lines 118-128) *)
(* ------------------------------------------------------------------ *)

Section LIF.
Local Open Scope Q_scope.

(** The update in exact arithmetic.  It is the result of the original
    wherever the product [mem * decay * (1. - spike)] and the sum
    [mem + inputs] are float32 numbers, as they are from a zero or reset
    membrane; [Float32.LIF_mem_update] below rounds them as the original
    does. *)
Definition LIF_mem_update (inputs mem spike : tensor Q)
  : result (tensor Q * tensor Q) :=
  let n := inject_Z (2 ^ 14) in
  mem <- tzip Qmult (tmap (fun m => m * decay) mem)
                    (tmap (fun s => 1 - s) spike) ;;
  let mem := tmap (fun v => clip v (- 14.99993896484375) 14.99993896484375)
               (tmap (fun v => v / n) (tmap round (tmap (fun v => v * n) mem))) in
  mem <- tzip Qplus mem inputs ;;
  let mem := tmap (fun v => clip v (- 14.99993896484375) 14.99993896484375)
               (tmap (fun v => v / n) (tmap round (tmap (fun v => v * n) mem))) in
  let temp_mem := tmap (fun v => v - thresh) mem in
  let spike := act_fun_adp temp_mem in
  Ok (mem, spike).

End LIF.

(* ------------------------------------------------------------------ *)
(** ** [LIF_mem_update] in float32 arithmetic *)
(* ------------------------------------------------------------------ *)

(** The tensors of the original hold IEEE 754 binary32 numbers, and every
    product, difference, quotient and sum is rounded to the nearest such
    number, ties to even.  [spec_float] and its operations are the standard
    library's specification of IEEE 754 arithmetic, taken here at 24 bits of
    precision and maximal exponent 128. *)
Module Float32.
Section Arithmetic.
Local Open Scope Q_scope.

Definition prec : Z := 24.
Definition emax : Z := 128.

(** The float32 nearest to a rational, ties to even: how a decimal literal
    or a Python [float] becomes a float32 (the literals of [train.py] are
    float32 numbers, so that nothing is rounded for them). *)
Definition of_Q (q : Q) : spec_float :=
  match Qnum q with
  | Z0 => S754_zero false
  | Zpos p =>
      let '(m, e, l) := SFdiv_core_binary prec emax (Zpos p) 0 (Zpos (Qden q)) 0 in
      binary_round_aux prec emax false m e l
  | Zneg p =>
      let '(m, e, l) := SFdiv_core_binary prec emax (Zpos p) 0 (Zpos (Qden q)) 0 in
      binary_round_aux prec emax true m e l
  end.

(** The number a float32 holds; infinities and NaN hold none. *)
Definition to_Q (x : spec_float) : option Q :=
  match x with
  | S754_zero _ => Some 0
  | S754_finite s m e =>
      Some ((if s then - inject_Z (Zpos m) else inject_Z (Zpos m)) * 2 ^ e)
  | _ => None
  end.

(** [x] holds the number [q]. *)
Definition represents (x : spec_float) (q : Q) : Prop :=
  match to_Q x with
  | Some v => v == q
  | None => False
  end.

Definition mul : spec_float -> spec_float -> spec_float := SFmul prec emax.
Definition add : spec_float -> spec_float -> spec_float := SFadd prec emax.
Definition sub : spec_float -> spec_float -> spec_float := SFsub prec emax.
Definition div : spec_float -> spec_float -> spec_float := SFdiv prec emax.

(** [torch.round] on one element: nearest integer, ties to even; the sign
    is kept when the result is zero, and an integer, an infinity or NaN is
    returned as it is. *)
Definition round (x : spec_float) : spec_float :=
  match x with
  | S754_finite s m e =>
      if (e <? 0)%Z
      then let k := round_half_even (inject_Z (Zpos m) * 2 ^ e) in
           binary_normalize prec emax (if s then (- k)%Z else k) 0 s
      else x
  | _ => x
  end.

(** [torch.clip(x, lo, hi)] on one element: [min(max(x, lo), hi)], NaN
    for NaN. *)
Definition clip (x lo hi : spec_float) : spec_float :=
  match x with
  | S754_nan => S754_nan
  | _ => if SFltb x lo then lo else if SFltb hi x then hi else x
  end.

(** Module constants of [train.py], lines 76-77. *)
Definition thresh : spec_float := of_Q 0.875.
Definition decay : spec_float := of_Q 0.5.

(** [input.gt(c)]: false on NaN. *)
Definition gt (input : tensor spec_float) (c : spec_float) : tensor bool :=
  tmap (fun v => SFltb c v) input.

(** [.float()] on a tensor of booleans. *)
Definition float (t : tensor bool) : tensor spec_float :=
  tmap (fun b : bool => if b then of_Q 1 else of_Q 0) t.

(** The forward value of [act_fun_adp], lines 87-89. *)
Definition act_fun_adp (input : tensor spec_float) : tensor spec_float :=
  float (gt input (of_Q 0)).

(** [LIF_mem_update(inputs, mem, spike)], lines 118-128. *)
Definition LIF_mem_update (inputs mem spike : tensor spec_float)
  : result (tensor spec_float * tensor spec_float) :=
  let n := of_Q (inject_Z (2 ^ 14)) in
  mem <- tzip mul (tmap (fun m => mul m decay) mem)
                  (tmap (fun s => sub (of_Q 1) s) spike) ;;
  let mem := tmap (fun v => clip v (of_Q (- 14.99993896484375))
                                   (of_Q 14.99993896484375))
               (tmap (fun v => div v n) (tmap round (tmap (fun v => mul v n) mem))) in
  mem <- tzip add mem inputs ;;
  let mem := tmap (fun v => clip v (of_Q (- 14.99993896484375))
                                   (of_Q 14.99993896484375))
               (tmap (fun v => div v n) (tmap round (tmap (fun v => mul v n) mem))) in
  let temp_mem := tmap (fun v => sub v thresh) mem in
  let spike := act_fun_adp temp_mem in
  Ok (mem, spike).

End Arithmetic.
End Float32.

(* ------------------------------------------------------------------ *)
(** ** [BinarizeLinear] (lines 143-156) *)
(* ------------------------------------------------------------------ *)

(** A trainable parameter: its live [data] and, once a forward call has
    created it, the attribute [org] (the full-precision shadow). *)
Record nn_Parameter : Type := mkParameter {
  data : tensor Q;
  org : option (tensor Q)
}.

Record BinarizeLinear : Type := mkBinarizeLinear {
  weight : nn_Parameter;
  bias : option nn_Parameter
}.

Section Linear.
Local Open Scope Q_scope.

Definition dot (a b : list Q) : Q := fold_left Qplus (zip_with Qmult a b) 0.

(** Row [i] of a row-major matrix with [cols] columns. *)
Definition row {A : Type} (cols i : nat) (l : list A) : list A :=
  firstn cols (skipn (i * cols) l).

(** [nn.functional.linear(input, weight)] without bias: [input] has shape
    [(..., i)], [weight] the shape [(o, i)] of an [nn.Linear] weight, the
    result the shape [(..., o)]. *)
Definition linear (input weight : tensor Q) : result (tensor Q) :=
  match shape weight, rev (shape input) with
  | [o; i], i' :: lead =>
      if (i' =? i)%nat
      then Ok (mkTensor (rev (o :: lead))
                 (flat_map
                    (fun b => map (fun k => dot (row i b (values input))
                                                (row i k (values weight)))
                                  (seq 0 o))
                    (seq 0 (numel lead))))
      else Raise RuntimeError
  | _, _ => Raise RuntimeError
  end.

(** [out += b.view(1, -1).expand_as(out)]: [out] needs at least two
    dimensions, and the length of [b] is the last dimension of [out], or 1
    (which [expand_as] repeats). *)
Definition add_expanded (out b : tensor Q) : result (tensor Q) :=
  match rev (shape out) with
  | o :: _ :: _ =>
      let n := List.length (values b) in
      if ((n =? o)%nat || (n =? 1)%nat)%bool
      then Ok (mkTensor (shape out)
                 (map (fun kv : nat * Q =>
                         snd kv + nth (if (n =? 1)%nat then 0%nat
                                       else (fst kv mod o)%nat) (values b) 0)
                      (combine (seq 0 (List.length (values out))) (values out))))
      else Raise RuntimeError
  | _ => Raise RuntimeError
  end.

(** The value [org] holds after [if not hasattr(p, "org"): p.org = p.data.clone()]. *)
Definition shadow (p : nn_Parameter) : tensor Q :=
  match org p with
  | Some o => o
  | None => data p
  end.

(** [BinarizeLinear.forward].  The layer is mutated even when the call
    raises, so the layer after the call is returned beside the outcome. *)
Definition BinarizeLinear_forward (self : BinarizeLinear) (input : tensor Q)
  : BinarizeLinear * result (tensor Q) :=
  let w_org := shadow (weight self) in
  let w := mkParameter (Binarize w_org) (Some w_org) in
  match linear input (data w) with
  | Raise e => (mkBinarizeLinear w (bias self), Raise e)
  | Ok out =>
      match bias self with
      | None => (mkBinarizeLinear w None, Ok out)
      | Some b =>
          let b := mkParameter (data b) (Some (shadow b)) in
          (mkBinarizeLinear w (Some b), add_expanded out (data b))
      end
  end.

End Linear.

(* ------------------------------------------------------------------ *)
(** ** Input encoding of the recurrent cells *)
(* ------------------------------------------------------------------ *)

(** The four cell classes of [train.py]. *)
Inductive cell : Type := GRU | SGRU | LSGRU | OLSGRU.

(** The encoding statements, the same in all four [forward] methods
    (lines 214-215, 250 and 253, 289 and 292, 318 and 321):
    [Encoding_mem = Encoding_spike = torch.zeros(x.size(0), x.size(1), x.size(2))]
    binds both names to one tensor, which [LIF_mem_update] only reads. *)
Definition encode_input (x : tensor Q) : result (tensor Q * tensor Q) :=
  d0 <- size x 0 ;;
  d1 <- size x 1 ;;
  d2 <- size x 2 ;;
  let Encoding_mem := zeros [d0; d1; d2] in
  let Encoding_spike := Encoding_mem in
  LIF_mem_update x Encoding_mem Encoding_spike.

(** [Encoding_spike] as each cell computes it before its time loop. *)
Definition Encoding_spike (c : cell) (x : tensor Q) : result (tensor Q) :=
  match c with
  | GRU => r <- encode_input x ;; Ok (snd r)
  | SGRU => r <- encode_input x ;; Ok (snd r)
  | LSGRU => r <- encode_input x ;; Ok (snd r)
  | OLSGRU => r <- encode_input x ;; Ok (snd r)
  end.

(** [OLSGRU.forward] (lines 312-324): [hidden_spike] and the gate tensors
    are built and never used; the encoded spikes are returned. *)
Definition OLSGRU_forward (hidden_size : nat) (x : tensor Q)
    (hidden_spike : option (tensor Q)) : result (tensor Q) :=
  hidden_spike <- match hidden_spike with
                  | None => d0 <- size x 0 ;; Ok (zeros [d0; hidden_size])
                  | Some h => Ok h   (* [hidden_spike.squeeze(0)], unused *)
                  end ;;
  d0 <- size x 0 ;;
  d1 <- size x 1 ;;
  d2 <- size x 2 ;;
  let Encoding_mem := zeros [d0; d1; d2] in
  let Encoding_spike := Encoding_mem in
  d0 <- size x 0 ;;
  let RZgate_mem := zeros [d0; hidden_size] in
  r <- LIF_mem_update x Encoding_mem Encoding_spike ;;
  let o_input := snd r in
  Ok o_input.

(* ------------------------------------------------------------------ *)
(** ** [Get_HexData] (lines 159-179) *)
(* ------------------------------------------------------------------ *)

Section Hex.
Local Open Scope Z_scope.

(** [.to(torch.int)] on one element: truncation toward zero, then the
    32-bit two's complement range. *)
Definition to_int (q : Q) : Z :=
  let z := if Qle_bool 0 q then Qfloor q else Qceiling q in
  (z + 2 ^ 31) mod 2 ^ 32 - 2 ^ 31.

(** [flattened.view(-1, 4)] on a list whose length is a multiple of 4. *)
Fixpoint group4 {A : Type} (l : list A) : list (list A) :=
  match l with
  | a :: b :: c :: d :: rest => [a; b; c; d] :: group4 rest
  | _ => []
  end.

(** [str(bit.item())]: the decimal text of a Python integer. *)
Definition py_str (z : Z) : string :=
  DecimalString.NilZero.string_of_int (Z.to_int z).

Fixpoint bin_digits (acc : Z) (s : string) : result Z :=
  match s with
  | EmptyString => Ok acc
  | String c s' =>
      if Ascii.eqb c "0" then bin_digits (2 * acc) s'
      else if Ascii.eqb c "1" then bin_digits (2 * acc + 1) s'
      else Raise ValueError
  end.

(** [int(s, 2)] on the texts that joining decimal integers can produce
    (decimal digits and minus signs): an optional leading sign, then one
    or more binary digits; [ValueError] otherwise. *)
Definition py_int_base2 (s : string) : result Z :=
  match s with
  | EmptyString => Raise ValueError
  | String c s' =>
      if Ascii.eqb c "-"
      then match s' with
           | EmptyString => Raise ValueError
           | _ => v <- bin_digits 0 s' ;; Ok (- v)
           end
      else bin_digits 0 s
  end.

(** [hex(v)]: sign, the prefix [0x], lower-case digits. *)
Definition py_hex (v : Z) : string :=
  String.append (if v <? 0 then "-"%string else ""%string)
    (String.append "0x"
       (HexadecimalString.NilZero.string_of_uint (N.to_hex_uint (Z.abs_N v)))).

(** [s[2:]]. *)
Definition drop2 (s : string) : string :=
  substring 2 (String.length s - 2) s.

Definition upper_ascii (c : ascii) : ascii :=
  let n := nat_of_ascii c in
  if ((97 <=? n)%nat && (n <=? 122)%nat)%bool then ascii_of_nat (n - 32) else c.

(** [s.upper()]. *)
Fixpoint upper (s : string) : string :=
  match s with
  | EmptyString => EmptyString
  | String c s' => String (upper_ascii c) (upper s')
  end.

(** The body of the loop over [grouped], for one group. *)
Definition hex_of_group (group : list Z) : result string :=
  let binary_str := String.concat "" (map py_str group) in
  v <- py_int_base2 binary_str ;;
  Ok (upper (drop2 (py_hex v))).

(** The loop: groups in order, stopping at the first exception. *)
Fixpoint hex_loop (grouped : list (list Z)) : result (list string) :=
  match grouped with
  | [] => Ok []
  | group :: rest =>
      hex_value <- hex_of_group group ;;
      hex_data <- hex_loop rest ;;
      Ok (hex_value :: hex_data)
  end.

(** [Get_HexData]; the diagnostic [print] of the result is not modelled. *)
Definition Get_HexData (binary_tensor : tensor Q) : result (list string) :=
  let binary_tensor := tmap to_int binary_tensor in
  let flattened := values binary_tensor in
  let flattened :=
    if negb (List.length flattened mod 4 =? 0)%nat
    then flattened ++ repeat 0 (4 - List.length flattened mod 4)%nat
    else flattened in
  let grouped := group4 flattened in
  let grouped := map (@rev Z) grouped in
  hex_data <- hex_loop grouped ;;
  let reversed_hex_data := rev hex_data in
  Ok reversed_hex_data.

End Hex.

(* ------------------------------------------------------------------ *)
(** ** The specification's formulas, for comparison with the code *)
(* ------------------------------------------------------------------ *)

Fixpoint zip_with3 {A B C D : Type} (f : A -> B -> C -> D)
    (l1 : list A) (l2 : list B) (l3 : list C) : list D :=
  match l1, l2, l3 with
  | a :: l1', b :: l2', c :: l3' => f a b c :: zip_with3 f l1' l2' l3'
  | _, _, _ => []
  end.

(** Two tensors of rationals with one shape and equal elements. *)
Definition tensor_eq (a b : tensor Q) : Prop :=
  shape a = shape b /\ Forall2 Qeq (values a) (values b).

Section SpecQ.
Local Open Scope Q_scope.

(** The bound the specification gives for a bit width:
    [L = 2^(n_bits-2) - 2^-(n_bits-2)], and the literal 1.99993896484375
    it names for the 16-bit weights. *)
Definition claimed_bound (n_bits : Z) : Q :=
  if (n_bits =? 16)%Z then 1.99993896484375
  else 2 ^ (n_bits - 2) - 2 ^ (- (n_bits - 2)).

(** [quantize] as the specification states it, with the bound [L] above. *)
Definition quantize_claimed (value : Q) (n_bits : Z) : Q :=
  clip (round (value * 2 ^ (n_bits - 2)) / 2 ^ (n_bits - 2))
       (- claimed_bound n_bits) (claimed_bound n_bits).

(** [quantize] on one value with the literal bound of the code. *)
Definition quantize_literal (value : Q) (n_bits : Z) : Q :=
  clip (round (value * 2 ^ (n_bits - 2)) / 2 ^ (n_bits - 2))
       (- 1.99993896484375) 1.99993896484375.

(** The membrane grid: [clip(round(v * 2^14) / 2^14, -b, b)]. *)
Definition membrane_grid (v : Q) : Q :=
  clip (round (v * 2 ^ 14) / 2 ^ 14) (- 14.99993896484375) 14.99993896484375.

(** One LIF update on one element, in the steps of the specification. *)
Definition lif_mem (inputs mem spike : Q) : Q :=
  let mem1 := mem * 0.5 * (1 - spike) in
  let mem2 := membrane_grid mem1 in
  let mem3 := mem2 + inputs in
  membrane_grid mem3.

Definition lif_spike (inputs mem spike : Q) : Q :=
  if Qlt_le_dec 0 (lif_mem inputs mem spike - 0.875) then 1 else 0.

(** The hard threshold on one element: [1.0] where [x > 0], else [0.0]. *)
Definition heaviside (x : Q) : Q := if Qlt_le_dec 0 x then 1 else 0.

(** The encoded spike of one input element. *)
Definition encoded_spike (x : Q) : Q :=
  if Qlt_le_dec 0.875 (membrane_grid x) then 1 else 0.

(** The output the specification claims for a quantized layer with bias:
    the product with the quantized shadow weight plus the quantized shadow
    bias. *)
Definition claimed_output (self : BinarizeLinear) (input : tensor Q)
  : result (tensor Q) :=
  out <- linear input (Quantize (shadow (weight self)) 16) ;;
  match bias self with
  | None => Ok out
  | Some b => add_expanded out (Quantize (shadow b) 16)
  end.

(** The 16-bit grid: multiples of [2^-14] between the literal bounds. *)
Definition on_weight_grid (v : Q) : Prop :=
  (exists k : Z, v == inject_Z k / 16384) /\
  - 1.99993896484375 <= v <= 1.99993896484375.

(** A layer on its first call: a 1x1 weight, a bias that is not on the
    16-bit grid, no shadow yet. *)
Definition layer_with_bias : BinarizeLinear :=
  mkBinarizeLinear (mkParameter (mkTensor [1; 1]%nat [1]) None)
                   (Some (mkParameter (mkTensor [1%nat] [0.3]) None)).

End SpecQ.

Section SpecFloat32.
Local Open Scope Q_scope.

(** The membrane grid in float32 arithmetic:
    [clip(round(v * 2^14) / 2^14, -b, b)], product and quotient rounded. *)
Definition membrane_grid_float32 (v : spec_float) : spec_float :=
  Float32.clip
    (Float32.div (Float32.round (Float32.mul v (Float32.of_Q (inject_Z (2 ^ 14)))))
                 (Float32.of_Q (inject_Z (2 ^ 14))))
    (Float32.of_Q (- 14.99993896484375)) (Float32.of_Q 14.99993896484375).

(** One LIF update on one element, in the steps of the specification, each
    arithmetic result rounded to float32. *)
Definition lif_mem_float32 (inputs mem spike : spec_float) : spec_float :=
  let mem1 := Float32.mul (Float32.mul mem (Float32.of_Q 0.5))
                          (Float32.sub (Float32.of_Q 1) spike) in
  let mem2 := membrane_grid_float32 mem1 in
  let mem3 := Float32.add mem2 inputs in
  membrane_grid_float32 mem3.

Definition lif_spike_float32 (inputs mem spike : spec_float) : spec_float :=
  if SFltb (Float32.of_Q 0)
           (Float32.sub (lif_mem_float32 inputs mem spike) (Float32.of_Q 0.875))
  then Float32.of_Q 1 else Float32.of_Q 0.

End SpecFloat32.

Section SpecR.
Local Open Scope R_scope.

(** Density of the normal law with mean [mu] and scale [sigma]. *)
Definition normal_density (x mu sigma : R) : R :=
  / (sigma * sqrt (2 * PI)) * exp (- ((x - mu) * (x - mu)) / (2 * (sigma * sigma))).

(** The kernel the specification gives for each mode. *)
Definition kernel (mode : string) (x : R) : R :=
  if String.eqb mode "G" then normal_density x 0 0.5
  else if String.eqb mode "MG" then
    normal_density x 0 0.5 * (1 + 0.15)
    - normal_density x 0.5 (6 * 0.5) * 0.15
    - normal_density x (- 0.5) (6 * 0.5) * 0.15
  else if String.eqb mode "linear" then Rmax 0 (1 - Rabs x)
  else if String.eqb mode "slayer" then exp (- 5 * Rabs x)
  else if String.eqb mode "sigmoid" then exp (- x) / ((1 + exp (- x)) * (1 + exp (- x)))
  else exp (- Rabs x).

(** The five kernel names of the specification. *)
Definition documented_modes : list string :=
  ["G"; "MG"; "linear"; "slayer"; "sigmoid"]%string.

End SpecR.

Section SpecHex.

(** A binary element read as a bit. *)
Definition bit_of (v : Q) : bool := Qeq_bool v 1.

(** Right-padding with zero bits to a multiple of 4. *)
Definition pad4 (bits : list bool) : list bool :=
  bits ++ repeat false ((4 - List.length bits mod 4) mod 4).

(** Value of a 4-bit group once its bit order is reversed: the first bit of
    the group is the least significant one. *)
Definition nibble_value (group : list bool) : nat :=
  fold_left (fun acc (b : bool) => (2 * acc + (if b then 1 else 0))%nat) (rev group) 0%nat.

Definition hex_digit (v : nat) : string :=
  nth v ["0"; "1"; "2"; "3"; "4"; "5"; "6"; "7";
         "8"; "9"; "A"; "B"; "C"; "D"; "E"; "F"]%string ""%string.

(** The packing as the specification words it. *)
Definition hex_packing (bits : list bool) : list string :=
  rev (map (fun g => hex_digit (nibble_value g)) (group4 (pad4 bits))).

(** Every element is 0 or 1. *)
Definition binary_valued (t : tensor Q) : Prop :=
  Forall (fun v => v == 0 \/ v == 1)%Q (values t).

(** A bit as the integer [.to(torch.int)] yields. *)
Definition Z_of_bit (b : bool) : Z := if b then 1%Z else 0%Z.

End SpecHex.

(* ------------------------------------------------------------------ *)
(** ** Parameter updates between forward calls *)
(* ------------------------------------------------------------------ *)

(** What an in-place update of [weight.data] leaves behind (as
    [optimizer.step()] does in the training loop, line 413): new live
    values, the attribute [org] untouched. *)
Definition with_weight_data (self : BinarizeLinear) (d : tensor Q) : BinarizeLinear :=
  mkBinarizeLinear (mkParameter d (org (weight self))) (bias self).

(* ------------------------------------------------------------------ *)
(** ** The spiking recurrent cells [SGRU] and [LSGRU] (lines 225-301) *)
(* ------------------------------------------------------------------ *)

(** What [forward] needs of [self.RZGate] and [self.h2o]: calling the layer
    on an input gives the layer after the call and the outcome. *)
Class Layer (L : Type) : Type := call : L -> tensor Q -> L * result (tensor Q).

(** An [nn.Linear]: its weight of shape [(out_features, in_features)] and,
    with [bias=True], its bias of [out_features] entries. *)
Record nn_Linear : Type := mkLinear {
  lin_weight : tensor Q;
  lin_bias : option (list Q)
}.

Section Cells.
Local Open Scope Q_scope.

(** Adding the bias of [nn.functional.linear]: broadcast along the last
    dimension (a one-entry bias is repeated). *)
Definition add_bias (out : tensor Q) (b : list Q) : result (tensor Q) :=
  match rev (shape out) with
  | o :: _ =>
      let n := List.length b in
      if ((n =? o)%nat || (n =? 1)%nat)%bool
      then Ok (mkTensor (shape out)
                 (map (fun kv : nat * Q =>
                         snd kv + nth (if (n =? 1)%nat then 0%nat
                                       else (fst kv mod o)%nat) b 0)
                      (combine (seq 0 (List.length (values out))) (values out))))
      else Raise RuntimeError
  | [] => Raise RuntimeError
  end.

(** [nn.Linear.forward]: [F.linear(input, self.weight, self.bias)]. *)
Definition nn_Linear_forward (l : nn_Linear) (input : tensor Q) : result (tensor Q) :=
  out <- linear input (lin_weight l) ;;
  match lin_bias l with
  | None => Ok out
  | Some b => add_bias out b
  end.

#[export] Instance nn_Linear_Layer : Layer nn_Linear :=
  fun l input => (l, nn_Linear_forward l input).

#[export] Instance BinarizeLinear_Layer : Layer BinarizeLinear :=
  BinarizeLinear_forward.

(** [t.squeeze(0)]: a first dimension of size 1 is dropped. *)
Definition squeeze0 {A : Type} (t : tensor A) : tensor A :=
  match shape t with
  | 1%nat :: rest => mkTensor rest (values t)
  | _ => t
  end.

(** [torch.cat((a, b), dim=1)] for [a] of two dimensions, as
    [Encoding_spike[:, t, :]] always is in the cells: [b] has two dimensions
    and as many rows, or is the one-dimensional empty tensor, which [cat]
    skips. *)
Definition cat_dim1 (a b : tensor Q) : result (tensor Q) :=
  match shape a, shape b with
  | [r; ca], [r'; cb] =>
      if (r =? r')%nat
      then Ok (mkTensor [r; (ca + cb)%nat]
                 (flat_map (fun k => row ca k (values a) ++ row cb k (values b))
                           (seq 0 r)))
      else Raise RuntimeError
  | [_; _], [0%nat] => Ok a
  | _, _ => Raise RuntimeError
  end.

(** How a call of a cell ends: with its return value, with an exception of
    the tensor operations, or with [UnboundLocalError] when [return o_input]
    is reached without any pass through the loop. *)
Inductive cell_outcome : Type :=
  | Output (o_input : tensor Q)
  | Failed (e : exception)
  | UnboundLocalError.

(** The local variables of the time loop and the two layers. *)
Record loop_state (L : Type) : Type := mkLoop {
  st_RZGate : L;
  st_h2o : L;
  st_hidden_spike : tensor Q;
  st_RZgate_mem : tensor Q;
  st_RZgate_spike : tensor Q;
  st_o_input : option (tensor Q)
}.

Arguments mkLoop {L} _ _ _ _ _ _.
Arguments st_RZGate {L} _.
Arguments st_h2o {L} _.
Arguments st_hidden_spike {L} _.
Arguments st_RZgate_mem {L} _.
Arguments st_RZgate_spike {L} _.
Arguments st_o_input {L} _.

(** One pass through the loop body (lines 256-261, 295-300): the state
    after it and the exception it raised, if any. *)
Definition loop_body {L : Type} `{Layer L} (Encoding_spike : tensor Q) (t : nat)
    (s : loop_state L) : loop_state L * option exception :=
  match select_middle Encoding_spike t with
  | Raise e => (s, Some e)
  | Ok X_spike =>
      match cat_dim1 X_spike (st_hidden_spike s) with
      | Raise e => (s, Some e)
      | Ok x_in =>
          let (rz, r) := call (st_RZGate s) x_in in
          match r with
          | Raise e =>
              (mkLoop rz (st_h2o s) (st_hidden_spike s) (st_RZgate_mem s)
                      (st_RZgate_spike s) (st_o_input s), Some e)
          | Ok RZgate_x =>
              match LIF_mem_update RZgate_x (st_RZgate_mem s) (st_RZgate_spike s) with
              | Raise e =>
                  (mkLoop rz (st_h2o s) (st_hidden_spike s) (st_RZgate_mem s)
                          (st_RZgate_spike s) (st_o_input s), Some e)
              | Ok (RZgate_mem, RZgate_spike) =>
                  let hidden_spike := RZgate_spike in
                  let (h, r2) := call (st_h2o s) hidden_spike in
                  match r2 with
                  | Raise e =>
                      (mkLoop rz h hidden_spike RZgate_mem RZgate_spike
                              (st_o_input s), Some e)
                  | Ok o_input =>
                      (mkLoop rz h hidden_spike RZgate_mem RZgate_spike
                              (Some o_input), None)
                  end
              end
          end
      end
  end.

(** [for t in range(x.size(1))]: the passes in order, up to the first
    exception. *)
Fixpoint time_loop {L : Type} `{Layer L} (Encoding_spike : tensor Q) (ts : list nat)
    (s : loop_state L) : loop_state L * option exception :=
  match ts with
  | [] => (s, None)
  | t :: rest =>
      match loop_body Encoding_spike t s with
      | (s', None) => time_loop Encoding_spike rest s'
      | (s', Some e) => (s', Some e)
      end
  end.

(** The statements before the loop (lines 245-254, 284-293): the initial
    hidden spikes, the encoding, the zero gate tensors. *)
Definition cell_prelude (hidden_size : nat) (x : tensor Q)
    (hidden_spike : option (tensor Q))
  : result (tensor Q * tensor Q * tensor Q * nat) :=
  hidden_spike <- match hidden_spike with
                  | None => d0 <- size x 0 ;; Ok (zeros [d0; hidden_size])
                  | Some h => Ok (squeeze0 h)
                  end ;;
  d0 <- size x 0 ;;
  d1 <- size x 1 ;;
  d2 <- size x 2 ;;
  let Encoding_mem := zeros [d0; d1; d2] in
  let Encoding_spike := Encoding_mem in
  d0 <- size x 0 ;;
  let RZgate_mem := zeros [d0; hidden_size] in
  r <- LIF_mem_update x Encoding_mem Encoding_spike ;;
  steps <- size x 1 ;;
  Ok (hidden_spike, snd r, RZgate_mem, steps).

(** [forward(x, hidden_spike)] of [SGRU] and [LSGRU], which differ in the
    class of their two layers only: the two layers after the call and how
    the call ends. *)
Definition spiking_forward {L : Type} `{Layer L} (hidden_size : nat) (RZGate h2o : L)
    (x : tensor Q) (hidden_spike : option (tensor Q)) : L * L * cell_outcome :=
  match cell_prelude hidden_size x hidden_spike with
  | Raise e => (RZGate, h2o, Failed e)
  | Ok (hidden_spike, Encoding_spike, RZgate_mem, steps) =>
      let RZgate_spike := RZgate_mem in
      let s0 := mkLoop RZGate h2o hidden_spike RZgate_mem RZgate_spike None in
      match time_loop Encoding_spike (seq 0 steps) s0 with
      | (s, Some e) => (st_RZGate s, st_h2o s, Failed e)
      | (s, None) =>
          (st_RZGate s, st_h2o s,
           match st_o_input s with
           | Some o_input => Output o_input
           | None => UnboundLocalError
           end)
      end
  end.

(** [SGRU.forward]: both layers are [nn.Linear]. *)
Definition SGRU_forward (hidden_size : nat) (RZGate h2o : nn_Linear)
    (x : tensor Q) (hidden_spike : option (tensor Q)) : cell_outcome :=
  snd (spiking_forward hidden_size RZGate h2o x hidden_spike).

(** [LSGRU.forward]: both layers are [BinarizeLinear], which the call
    mutates. *)
Definition LSGRU_forward (hidden_size : nat) (RZGate h2o : BinarizeLinear)
    (x : tensor Q) (hidden_spike : option (tensor Q))
  : BinarizeLinear * BinarizeLinear * cell_outcome :=
  spiking_forward hidden_size RZGate h2o x hidden_spike.

End Cells.

Arguments mkLoop {L} _ _ _ _ _ _.
Arguments st_RZGate {L} _.
Arguments st_h2o {L} _.
Arguments st_hidden_spike {L} _.
Arguments st_RZgate_mem {L} _.
Arguments st_RZgate_spike {L} _.
Arguments st_o_input {L} _.

(** A layer, in every state of a set [I] of states closed under calls,
    maps the zero tensor of [n_in] columns to a tensor of [n_out] columns
    whose elements are all equal to zero. *)
Definition zero_preserving {L : Type} `{Layer L} (I : L -> Prop) (n_in n_out : nat)
  : Prop :=
  forall (l : L) (B : nat),
    I l ->
    exists (l' : L) (out : tensor Q),
      call l (zeros [B; n_in]) = (l', Ok out) /\
      I l' /\
      shape out = [B; n_out] /\
      List.length (values out) = (B * n_out)%nat /\
      Forall (fun v => v == 0)%Q (values out).

(** The loop state of a cell that has seen only zero input so far: layers
    in their sets of states, no hidden spike, a membrane equal to zero. *)
Definition silent_state {L : Type} (I_rz I_h : L -> Prop) (B H : nat)
    (s : loop_state L) : Prop :=
  I_rz (st_RZGate s) /\ I_h (st_h2o s) /\
  st_hidden_spike s = zeros [B; H] /\
  shape (st_RZgate_mem s) = [B; H] /\
  List.length (values (st_RZgate_mem s)) = (B * H)%nat /\
  Forall (fun v => v == 0)%Q (values (st_RZgate_mem s)) /\
  st_RZgate_spike s = zeros [B; H].

(** An output of [B] rows and [O] columns, all elements equal to zero. *)
Definition zero_output (B O : nat) (o : option (tensor Q)) : Prop :=
  exists out : tensor Q,
    o = Some out /\ shape out = [B; O] /\
    List.length (values out) = (B * O)%nat /\
    Forall (fun v => v == 0)%Q (values out).

(* ------------------------------------------------------------------ *)
(** ** Reading a hex packing back *)
(* ------------------------------------------------------------------ *)

(** The four bits of a nibble value, least significant first. *)
Definition nibble_bits (v : nat) : list bool :=
  [Nat.odd v; Nat.odd (v / 2); Nat.odd (v / 4); Nat.odd (v / 8)].

(** The value of an upper-case hex digit (0 for any other text). *)
Definition digit_value (s : string) : nat :=
  match find (fun v => String.eqb (hex_digit v) s) (seq 0 16) with
  | Some v => v
  | None => 0%nat
  end.

(** The bits a list of hex digits stands for, undoing [hex_packing]. *)
Definition bits_of_hex (l : list string) : list bool :=
  flat_map (fun s => nibble_bits (digit_value s)) (rev l).

(** Every element is one of the integers 0 to 9. *)
Definition decimal_digits (t : tensor Q) : Prop :=
  Forall (fun v => exists d : Z, (0 <= d <= 9)%Z /\ (v == inject_Z d)%Q) (values t).

(* ------------------------------------------------------------------ *)
(** ** Padding and trimming of the time axis (lines 61-66) *)
(* ------------------------------------------------------------------ *)

(** [torch.nn.functional.pad(waveform, (0, padding))] on a tensor whose
    last dimension is [last]: [padding] zeros after every row. *)
Definition pad_last (waveform : tensor Q) (last padding : nat) : tensor Q :=
  let lead := removelast (shape waveform) in
  mkTensor (lead ++ [(last + padding)%nat])
    (flat_map (fun k => row last k (values waveform) ++ repeat 0%Q padding)
              (seq 0 (numel lead))).

(** [waveform[:, :, :max_length]]: three indices need three dimensions;
    the third one is cut to its first [max_length] entries. *)
Definition trim_third (waveform : tensor Q) (max_length : nat) : result (tensor Q) :=
  match shape waveform with
  | a :: b :: c :: rest =>
      let block := numel rest in
      let kept := Nat.min c max_length in
      Ok (mkTensor (a :: b :: kept :: rest)
            (flat_map (fun k => firstn (kept * block)
                                  (skipn (k * (c * block)) (values waveform)))
                      (seq 0 (a * b))))
  | _ => Raise IndexError
  end.

(** The pad/trim statements of [Dataset.__getitem__], for a [max_length]
    that is a length; [waveform.shape[-1]] needs one dimension at least. *)
Definition pad_or_trim (waveform : tensor Q) (max_length : nat) : result (tensor Q) :=
  match rev (shape waveform) with
  | [] => Raise IndexError
  | last :: _ =>
      if (last <? max_length)%nat then
        let padding := (max_length - last)%nat in
        Ok (pad_last waveform last padding)
      else if (max_length <? last)%nat then
        trim_third waveform max_length
      else Ok waveform
  end.

(* ================================================================== *)
(** * Properties *)
(* ================================================================== *)

(** ** Lists and tensors *)

Lemma zip_with_length {A B C : Type} (f : A -> B -> C) (l1 : list A) (l2 : list B) :
  List.length l1 = List.length l2 ->
  List.length (zip_with f l1 l2) = List.length l1.
Proof.
  revert l2; induction l1 as [|a l1 IH]; intros [|b l2] H; simpl in *;
    try discriminate; auto.
Qed.

Lemma zip_with_map_l {A A' B C : Type} (f : A' -> B -> C) (g : A -> A')
    (l1 : list A) (l2 : list B) :
  zip_with f (map g l1) l2 = zip_with (fun a b => f (g a) b) l1 l2.
Proof.
  revert l2; induction l1 as [|a l1 IH]; intros [|b l2]; simpl; auto.
  now rewrite IH.
Qed.

Lemma zip_with_map_r {A B B' C : Type} (f : A -> B' -> C) (g : B -> B')
    (l1 : list A) (l2 : list B) :
  zip_with f l1 (map g l2) = zip_with (fun a b => f a (g b)) l1 l2.
Proof.
  revert l2; induction l1 as [|a l1 IH]; intros [|b l2]; simpl; auto.
  now rewrite IH.
Qed.

Lemma map_zip_with {A B C D : Type} (f : A -> B -> C) (g : C -> D)
    (l1 : list A) (l2 : list B) :
  map g (zip_with f l1 l2) = zip_with (fun a b => g (f a b)) l1 l2.
Proof.
  revert l2; induction l1 as [|a l1 IH]; intros [|b l2]; simpl; auto.
  now rewrite IH.
Qed.

Lemma zip_with_ext {A B C : Type} (f g : A -> B -> C) (l1 : list A) (l2 : list B) :
  (forall a b, In a l1 -> In b l2 -> f a b = g a b) ->
  zip_with f l1 l2 = zip_with g l1 l2.
Proof.
  revert l2; induction l1 as [|a l1 IH]; intros [|b l2] H; simpl; auto.
  f_equal; [apply H; simpl; auto | apply IH; intros; apply H; simpl; auto].
Qed.

Lemma zip_with_same {A C : Type} (f : A -> A -> C) (l : list A) :
  zip_with f l l = map (fun a => f a a) l.
Proof. induction l as [|a l IH]; simpl; auto. now rewrite IH. Qed.

Lemma zip_with_zip_with_l {A B C D E : Type} (f : A -> B -> C) (g : C -> D -> E)
    (l1 : list A) (l2 : list B) (l3 : list D) :
  zip_with g (zip_with f l1 l2) l3 = zip_with3 (fun a b d => g (f a b) d) l1 l2 l3.
Proof.
  revert l2 l3; induction l1 as [|a l1 IH]; intros [|b l2] [|d l3]; simpl; auto.
  now rewrite IH.
Qed.

Lemma zip_with3_nth_error {A B C D : Type} (f : A -> B -> C -> D)
    (l1 : list A) (l2 : list B) (l3 : list C) (k : nat) (a : A) (b : B) (c : C) :
  nth_error l1 k = Some a -> nth_error l2 k = Some b -> nth_error l3 k = Some c ->
  nth_error (zip_with3 f l1 l2 l3) k = Some (f a b c).
Proof.
  revert l1 l2 l3; induction k as [|k IH]; intros [|x l1] [|y l2] [|z l3];
    simpl; try discriminate.
  - now intros [= ->] [= ->] [= ->].
  - apply IH.
Qed.

Lemma zip_with3_length {A B C D : Type} (f : A -> B -> C -> D)
    (l1 : list A) (l2 : list B) (l3 : list C) :
  List.length l2 = List.length l1 -> List.length l3 = List.length l1 ->
  List.length (zip_with3 f l1 l2 l3) = List.length l1.
Proof.
  revert l2 l3; induction l1 as [|a l1 IH]; intros [|b l2] [|c l3] H2 H3;
    simpl in *; try discriminate; auto.
Qed.

Lemma zip_with_nth_error {A B C : Type} (f : A -> B -> C)
    (l1 : list A) (l2 : list B) (k : nat) (a : A) (b : B) :
  nth_error l1 k = Some a -> nth_error l2 k = Some b ->
  nth_error (zip_with f l1 l2) k = Some (f a b).
Proof.
  revert l1 l2; induction k as [|k IH]; intros [|x l1] [|y l2];
    simpl; try discriminate.
  - now intros [= ->] [= ->].
  - apply IH.
Qed.

Lemma shape_eqb_refl (s : list nat) : shape_eqb s s = true.
Proof. unfold shape_eqb. destruct (list_eq_dec Nat.eq_dec s s); congruence. Qed.

Lemma shape_eqb_eq (s1 s2 : list nat) : shape_eqb s1 s2 = true -> s1 = s2.
Proof. unfold shape_eqb. destruct (list_eq_dec Nat.eq_dec s1 s2); congruence. Qed.

(** ** Rounding and clipping *)

Section RoundClip.
Local Open Scope Q_scope.

Lemma round_half_even_comp (x y : Q) :
  x == y -> round_half_even x = round_half_even y.
Proof.
  intros H. unfold round_half_even.
  rewrite (Qfloor_comp x y H).
  assert (E : Qcompare (x - inject_Z (Qfloor y)) (1 # 2)
              = Qcompare (y - inject_Z (Qfloor y)) (1 # 2)).
  { apply Qcompare_comp; [rewrite H|]; reflexivity. }
  now rewrite E.
Qed.

Lemma round_comp (x y : Q) : x == y -> round x = round y.
Proof. intros H. unfold round. now rewrite (round_half_even_comp x y H). Qed.

Lemma round_half_even_Z (k : Z) : round_half_even (inject_Z k) = k.
Proof.
  unfold round_half_even. rewrite Qfloor_Z.
  assert (E : Qcompare (inject_Z k - inject_Z k) (1 # 2) = Lt).
  { apply Qlt_alt.
    assert (H : inject_Z k - inject_Z k == 0) by ring.
    rewrite H. reflexivity. }
  now rewrite E.
Qed.

Lemma clip_comp (x y lo hi : Q) : x == y -> clip x lo hi == clip y lo hi.
Proof. intros H. unfold clip. now rewrite H. Qed.

Lemma clip_inside (x lo hi : Q) : lo <= x -> x <= hi -> clip x lo hi == x.
Proof.
  intros H1 H2. unfold clip.
  rewrite (Q.max_l x lo H1). now apply Q.min_l.
Qed.

Lemma clip_cases (x lo hi : Q) :
  lo <= hi ->
  (x < lo /\ clip x lo hi == lo) \/
  (hi < x /\ clip x lo hi == hi) \/
  (lo <= x <= hi /\ clip x lo hi == x).
Proof.
  intros Hlh. unfold clip.
  destruct (Qlt_le_dec x lo) as [Hlo|Hlo].
  - left. split; auto.
    rewrite (Q.max_r x lo) by lra. apply Q.min_l; lra.
  - rewrite (Q.max_l x lo Hlo).
    destruct (Qlt_le_dec hi x) as [Hhi|Hhi].
    + right; left. split; auto. apply Q.min_r; lra.
    + right; right. split; [split; auto|]. now apply Q.min_l.
Qed.

Lemma clip_bounds (x lo hi : Q) : lo <= hi -> lo <= clip x lo hi <= hi.
Proof.
  intros Hlh.
  destruct (clip_cases x lo hi Hlh) as [[_ E]|[[_ E]|[[? ?] E]]]; rewrite E; lra.
Qed.

Lemma Qgtb_spec (x c : Q) : Qgtb x c = true <-> c < x.
Proof.
  unfold Qgtb. rewrite negb_true_iff.
  split; intros H.
  - apply Qnot_le_lt. intros Hle. apply Qle_bool_iff in Hle. congruence.
  - destruct (Qle_bool x c) eqn:E; auto.
    apply Qle_bool_iff in E. lra.
Qed.

Lemma Qgtb_heaviside (x : Q) :
  (if Qgtb x 0 then 1 else 0) = heaviside x.
Proof.
  unfold heaviside. destruct (Qlt_le_dec 0 x) as [H|H].
  - apply Qgtb_spec in H. now rewrite H.
  - destruct (Qgtb x 0) eqn:E; auto. apply Qgtb_spec in E. lra.
Qed.

Lemma quantize_literal_on_grid (x : Q) : on_weight_grid (quantize_literal x 16).
Proof.
  unfold quantize_literal. change (2 ^ (16 - 2)) with 16384.
  set (k := round_half_even (x * 16384)). unfold round. fold k.
  split; [|apply clip_bounds; lra].
  destruct (clip_cases (inject_Z k / 16384) (- 1.99993896484375) 1.99993896484375)
    as [[_ E]|[[_ E]|[_ E]]]; [lra| | |].
  - exists (-32767)%Z. rewrite E. reflexivity.
  - exists 32767%Z. rewrite E. reflexivity.
  - exists k. exact E.
Qed.

Lemma quantize_literal_fixes_grid (v : Q) :
  on_weight_grid v -> quantize_literal v 16 == v.
Proof.
  intros [[k Hk] [Hlo Hhi]].
  unfold quantize_literal. change (2 ^ (16 - 2)) with 16384.
  assert (E : v * 16384 == inject_Z k) by (rewrite Hk; field).
  unfold round. rewrite (round_half_even_comp _ _ E), round_half_even_Z.
  transitivity (clip v (- 1.99993896484375) 1.99993896484375).
  - apply clip_comp. symmetry. exact Hk.
  - now apply clip_inside.
Qed.

Lemma quantize_literal_idempotent (x : Q) :
  quantize_literal (quantize_literal x 16) 16 == quantize_literal x 16.
Proof. apply quantize_literal_fixes_grid, quantize_literal_on_grid. Qed.

Lemma Quantize_elementwise (t : tensor Q) (n_bit : Z) :
  Quantize t n_bit = tmap (fun v => quantize_literal v n_bit) t.
Proof.
  unfold Quantize, tmap; simpl. f_equal.
  rewrite !map_map. reflexivity.
Qed.

End RoundClip.

(** ** The fixed-point quantizer *)

Section QuantizerProperties.
Local Open Scope Q_scope.

(** C3, as stated, fails at a width other than 16: at 8 bits the bound
    [L = 2^(n_bits-2) - 2^-(n_bits-2)] of the specification is 63.984375,
    so the value 3 would pass the quantization unchanged ([3 * 2^6] is the
    integer 192), while [Quantize] clips it to 1.99993896484375, the bound
    of the 16-bit format. *)
Lemma Quantize_claimed_bound_fails_at_8_bits :
  exists q : Q,
    values (Quantize (mkTensor [] [3]) 8) = [q] /\
    q == 1.99993896484375 /\
    claimed_bound 8 == 63.984375 /\
    quantize_claimed 3 8 == 3 /\
    ~ q == quantize_claimed 3 8.
Proof.
  eexists. split; [vm_compute; reflexivity|].
  split; [reflexivity|].
  split; [vm_compute; reflexivity|].
  split; [vm_compute; reflexivity|].
  vm_compute. discriminate.
Qed.

(** C3, amended: for every tensor and every bit width from 2 to 129 (the
    widths whose scale [2^(n_bits-2)] is a float32 number), [Quantize] is,
    on each element, [clip(round(v * 2^(n_bits-2)) / 2^(n_bits-2), -L, L)]
    with [L] the literal 1.99993896484375, which is [2 - 2^-14] at every
    such width and not only at 16 bits; the shape is kept. *)
Theorem Quantize_literal_bound (t : tensor Q) (n_bits : Z) :
  (2 <= n_bits <= 129)%Z ->
  Quantize t n_bits
  = tmap (fun v => clip (round (v * 2 ^ (n_bits - 2)) / 2 ^ (n_bits - 2))
                        (- 1.99993896484375) 1.99993896484375) t
  /\ shape (Quantize t n_bits) = shape t
  /\ 1.99993896484375 == 2 - 2 ^ (- 14).
Proof.
  intros _.
  split; [apply Quantize_elementwise|].
  split; reflexivity.
Qed.

Lemma Quantize_literal_bound_witness :
  let t := mkTensor [2%nat] [3; 0.3] in
  (2 <= 8 <= 129)%Z /\
  Quantize t 8
  = tmap (fun v => clip (round (v * 2 ^ (8 - 2)) / 2 ^ (8 - 2))
                        (- 1.99993896484375) 1.99993896484375) t
  /\ shape (Quantize t 8) = shape t
  /\ 1.99993896484375 == 2 - 2 ^ (- 14).
Proof.
  intros t.
  assert (H : (2 <= 8 <= 129)%Z) by lia.
  split; [exact H|].
  apply (Quantize_literal_bound t 8 H).
Defined.

(** C4: 16-bit quantization is idempotent, on every element of every
    tensor (equality of rationals, shapes equal). *)
Theorem Quantize_16_idempotent (t : tensor Q) :
  tensor_eq (Quantize (Quantize t 16) 16) (Quantize t 16) /\
  tensor_eq (Binarize (Binarize t)) (Binarize t).
Proof.
  assert (H : tensor_eq (Quantize (Quantize t 16) 16) (Quantize t 16)).
  { rewrite !Quantize_elementwise. unfold tensor_eq, tmap. cbn [shape values].
    split; [reflexivity|].
    rewrite map_map.
    induction (values t) as [|x l IH]; cbn [map]; constructor; auto.
    apply quantize_literal_idempotent. }
  split; exact H.
Qed.

End QuantizerProperties.

(** ** The surrogate estimator, forward pass *)

Section ForwardProperties.
Local Open Scope Q_scope.

Lemma forward_values (x : tensor Q) :
  values (snd (AcFun_adp.forward x)) = map heaviside (values x).
Proof.
  unfold AcFun_adp.forward, AcFun_adp.float, AcFun_adp.gt, tmap; simpl.
  rewrite map_map. apply map_ext. intros v. apply Qgtb_heaviside.
Qed.

Lemma heaviside_binary (v : Q) : heaviside v = 0 \/ heaviside v = 1.
Proof. unfold heaviside. destruct (Qlt_le_dec 0 v); auto. Qed.

(** C7: the forward pass saves its input and returns, element by element,
    exactly 1 where the input is strictly positive and exactly 0 elsewhere:
    every output element is 0 or 1, an input element equal to 0 gives 0,
    and the shape is kept. *)
Theorem forward_hard_threshold (x : tensor Q) :
  saved_tensors (fst (AcFun_adp.forward x)) = [x] /\
  shape (snd (AcFun_adp.forward x)) = shape x /\
  List.length (values (snd (AcFun_adp.forward x))) = List.length (values x) /\
  Forall (fun o => o = 0 \/ o = 1) (values (snd (AcFun_adp.forward x))) /\
  (forall (k : nat) (v : Q),
      nth_error (values x) k = Some v ->
      nth_error (values (snd (AcFun_adp.forward x))) k
      = Some (if Qlt_le_dec 0 v then 1 else 0)) /\
  (forall (k : nat) (v : Q),
      nth_error (values x) k = Some v -> v == 0 ->
      nth_error (values (snd (AcFun_adp.forward x))) k = Some 0).
Proof.
  rewrite forward_values.
  split; [reflexivity|]. split; [reflexivity|].
  split; [apply length_map|].
  split.
  { apply Forall_forall. intros o Ho. apply in_map_iff in Ho.
    destruct Ho as [v [<- _]]. apply heaviside_binary. }
  split.
  - intros k v Hk. rewrite nth_error_map, Hk. reflexivity.
  - intros k v Hk Hv. rewrite nth_error_map, Hk. simpl. f_equal.
    unfold heaviside. destruct (Qlt_le_dec 0 v); auto. lra.
Qed.

End ForwardProperties.

Lemma map_zip_with3 {A B C D E : Type} (f : A -> B -> C -> D) (g : D -> E)
    (l1 : list A) (l2 : list B) (l3 : list C) :
  map g (zip_with3 f l1 l2 l3) = zip_with3 (fun a b c => g (f a b c)) l1 l2 l3.
Proof.
  revert l2 l3; induction l1 as [|a l1 IH]; intros [|b l2] [|c l3]; cbn; auto.
  now rewrite IH.
Qed.

Lemma zip_with3_rotate {A B C D : Type} (f : A -> B -> C -> D)
    (l1 : list A) (l2 : list B) (l3 : list C) :
  zip_with3 f l1 l2 l3 = zip_with3 (fun c a b => f a b c) l3 l1 l2.
Proof.
  revert l2 l3; induction l1 as [|a l1 IH]; intros [|b l2] [|c l3]; cbn; auto.
  now rewrite IH.
Qed.

Lemma zip_with3_ext {A B C D : Type} (f g : A -> B -> C -> D)
    (l1 : list A) (l2 : list B) (l3 : list C) :
  (forall a b c, f a b c = g a b c) ->
  zip_with3 f l1 l2 l3 = zip_with3 g l1 l2 l3.
Proof.
  intros H. revert l2 l3; induction l1 as [|a l1 IH]; intros [|b l2] [|c l3]; cbn; auto.
  now rewrite H, IH.
Qed.

(** ** The LIF update *)

Section LIFProperties.
Local Open Scope Q_scope.

Lemma tzip_same_shape {A B C : Type} (f : A -> B -> C) (a : tensor A) (b : tensor B) :
  shape a = shape b ->
  tzip f a b = Ok (mkTensor (shape a) (zip_with f (values a) (values b))).
Proof. intros H. unfold tzip. now rewrite H, shape_eqb_refl. Qed.

Lemma LIF_mem_update_values (inputs mem spike : tensor Q) :
  shape mem = shape inputs -> shape spike = shape inputs ->
  LIF_mem_update inputs mem spike
  = Ok (mkTensor (shape inputs)
          (zip_with3 lif_mem (values inputs) (values mem) (values spike)),
        mkTensor (shape inputs)
          (zip_with3 lif_spike (values inputs) (values mem) (values spike))).
Proof.
  intros Hm Hs. unfold LIF_mem_update.
  rewrite tzip_same_shape by (unfold tmap; cbn [shape]; congruence).
  cbn [bind].
  rewrite tzip_same_shape by (unfold tmap; cbn [shape]; congruence).
  cbn [bind].
  unfold act_fun_adp, AcFun_adp.forward, AcFun_adp.float, AcFun_adp.gt, tmap.
  cbn [shape values snd fst].
  rewrite Hm.
  repeat first [ rewrite map_map | rewrite zip_with_map_l | rewrite zip_with_map_r
               | rewrite map_zip_with | rewrite zip_with_zip_with_l ].
  rewrite !(zip_with3_rotate _ (values mem)).
  match goal with
  | |- Ok (mkTensor _ ?a, mkTensor _ ?b) = Ok (mkTensor _ ?c, mkTensor _ ?d) =>
      assert (Ha : a = c); [| assert (Hb : b = d); [| now rewrite Ha, Hb ] ]
  end.
  - apply zip_with3_ext; intros i m s.
    unfold lif_mem, membrane_grid, decay.
    change (2 ^ 14) with (inject_Z (2 ^ 14)). reflexivity.
  - apply zip_with3_ext; intros i m s.
    rewrite Qgtb_heaviside.
    unfold lif_spike, heaviside, lif_mem, membrane_grid, decay, thresh.
    change (2 ^ 14) with (inject_Z (2 ^ 14)). reflexivity.
Qed.


Lemma LIF_mem_update_float32_values (inputs mem spike : tensor spec_float) :
  shape mem = shape inputs -> shape spike = shape inputs ->
  Float32.LIF_mem_update inputs mem spike
  = Ok (mkTensor (shape inputs)
          (zip_with3 lif_mem_float32 (values inputs) (values mem) (values spike)),
        mkTensor (shape inputs)
          (zip_with3 lif_spike_float32 (values inputs) (values mem) (values spike))).
Proof.
  intros Hm Hs. unfold Float32.LIF_mem_update.
  rewrite tzip_same_shape by (unfold tmap; cbn [shape]; congruence).
  cbn [bind].
  rewrite tzip_same_shape by (unfold tmap; cbn [shape]; congruence).
  cbn [bind].
  unfold Float32.act_fun_adp, Float32.float, Float32.gt, tmap.
  cbn [shape values].
  rewrite Hm.
  repeat first [ rewrite map_map | rewrite zip_with_map_l | rewrite zip_with_map_r
               | rewrite map_zip_with | rewrite zip_with_zip_with_l ].
  rewrite !(zip_with3_rotate _ (values mem)).
  match goal with
  | |- Ok (mkTensor _ ?a, mkTensor _ ?b) = Ok (mkTensor _ ?c, mkTensor _ ?d) =>
      assert (Ha : a = c); [| assert (Hb : b = d); [| now rewrite Ha, Hb ] ]
  end.
  - apply zip_with3_ext; intros i m s.
    unfold lif_mem_float32, membrane_grid_float32, Float32.decay. reflexivity.
  - apply zip_with3_ext; intros i m s.
    unfold lif_spike_float32, lif_mem_float32, membrane_grid_float32,
      Float32.decay, Float32.thresh.
    reflexivity.
Qed.

(** The constants of the LIF update are float32 numbers: converting them
    rounds nothing. *)
Lemma LIF_constants_exact :
  Float32.represents (Float32.of_Q 0.5) 0.5 /\
  Float32.represents (Float32.of_Q 1) 1 /\
  Float32.represents (Float32.of_Q (inject_Z (2 ^ 14))) (inject_Z (2 ^ 14)) /\
  Float32.represents (Float32.of_Q 14.99993896484375) 14.99993896484375 /\
  Float32.represents (Float32.of_Q (- 14.99993896484375)) (- 14.99993896484375) /\
  Float32.represents (Float32.of_Q 0.875) 0.875 /\
  Float32.represents (Float32.of_Q 0) 0.
Proof. repeat split; vm_compute; reflexivity. Qed.

(** C2, as stated, fails: the steps of the claim, taken on the numbers the
    tensors hold, are not what the update returns, because the sum
    [mem + inputs] is rounded to float32 before it is quantized.  With
    [inputs = 0.375 + 2^-15 + 2^-25], [mem = 1] and [spike = 0] (three
    float32 numbers) the sum [0.5 + inputs] lies halfway between two
    float32 numbers and is rounded to [0.875 + 2^-15]; scaled by [2^14]
    that is the tie 14336.5, which rounds to the even 14336: the update
    returns membrane 0.875 and spike 0, where the steps of the claim give
    14337/16384 and spike 1. *)
Lemma LIF_mem_update_rounds_the_sum :
  let x : Q := (3 # 8) + (1 # 32768) + (1 # 33554432) in
  let inputs := mkTensor [1%nat] [Float32.of_Q x] in
  let mem := mkTensor [1%nat] [Float32.of_Q 1] in
  let spike := mkTensor [1%nat] [Float32.of_Q 0] in
  Float32.represents (Float32.of_Q x) x /\
  Float32.represents (Float32.of_Q 1) 1 /\
  Float32.represents (Float32.of_Q 0) 0 /\
  exists m' s' : spec_float,
    Float32.LIF_mem_update inputs mem spike
    = Ok (mkTensor [1%nat] [m'], mkTensor [1%nat] [s']) /\
    Float32.represents m' 0.875 /\
    Float32.represents s' 0 /\
    lif_mem x 1 0 == 14337 # 16384 /\
    lif_spike x 1 0 = 1 /\
    ~ Float32.represents m' (lif_mem x 1 0) /\
    ~ Float32.represents s' (lif_spike x 1 0).
Proof.
  intros x inputs mem spike.
  split; [vm_compute; reflexivity|].
  split; [vm_compute; reflexivity|].
  split; [vm_compute; reflexivity|].
  eexists. eexists.
  split; [vm_compute; reflexivity|].
  split; [vm_compute; reflexivity|].
  split; [vm_compute; reflexivity|].
  split; [vm_compute; reflexivity|].
  split; [vm_compute; reflexivity|].
  split; vm_compute; discriminate.
Qed.

(** C2, amended: on float32 tensors of one shape, one LIF update returns
    [(mem', spike')] of that same shape whose elements are, index by index
    and with every product, difference, quotient and sum rounded to the
    nearest float32 (ties to even),
    [mem1 = mem * 0.5 * (1 - spike)],
    [mem2 = clip(round(mem1 * 2^14) / 2^14, -b, b)],
    [mem3 = mem2 + inputs] (rounded before it is quantized),
    [mem' = clip(round(mem3 * 2^14) / 2^14, -b, b)] with
    [b = 14.99993896484375], and [spike' = 1] where [mem' - 0.875 > 0],
    else [0]; the constants are float32 numbers, held exactly. *)
Theorem LIF_mem_update_float32_steps (inputs mem spike : tensor spec_float) :
  well_shaped inputs -> well_shaped mem -> well_shaped spike ->
  shape mem = shape inputs -> shape spike = shape inputs ->
  (exists mem' spike' : tensor spec_float,
    Float32.LIF_mem_update inputs mem spike = Ok (mem', spike') /\
    shape mem' = shape inputs /\ shape spike' = shape inputs /\
    well_shaped mem' /\ well_shaped spike' /\
    forall (k : nat) (i m s : spec_float),
      nth_error (values inputs) k = Some i ->
      nth_error (values mem) k = Some m ->
      nth_error (values spike) k = Some s ->
      let n := Float32.of_Q (inject_Z (2 ^ 14)) in
      let lo := Float32.of_Q (- 14.99993896484375) in
      let hi := Float32.of_Q 14.99993896484375 in
      let mem1 := Float32.mul (Float32.mul m (Float32.of_Q 0.5))
                              (Float32.sub (Float32.of_Q 1) s) in
      let mem2 := Float32.clip (Float32.div (Float32.round (Float32.mul mem1 n)) n)
                               lo hi in
      let mem3 := Float32.add mem2 i in
      let mem4 := Float32.clip (Float32.div (Float32.round (Float32.mul mem3 n)) n)
                               lo hi in
      nth_error (values mem') k = Some mem4 /\
      nth_error (values spike') k
      = Some (if SFltb (Float32.of_Q 0) (Float32.sub mem4 (Float32.of_Q 0.875))
              then Float32.of_Q 1 else Float32.of_Q 0)) /\
  Float32.represents (Float32.of_Q 0.5) 0.5 /\
  Float32.represents (Float32.of_Q 1) 1 /\
  Float32.represents (Float32.of_Q (inject_Z (2 ^ 14))) (inject_Z (2 ^ 14)) /\
  Float32.represents (Float32.of_Q 14.99993896484375) 14.99993896484375 /\
  Float32.represents (Float32.of_Q (- 14.99993896484375)) (- 14.99993896484375) /\
  Float32.represents (Float32.of_Q 0.875) 0.875 /\
  Float32.represents (Float32.of_Q 0) 0.
Proof.
  intros Wi Wm Ws Hm Hs.
  split; [|exact LIF_constants_exact].
  rewrite (LIF_mem_update_float32_values inputs mem spike Hm Hs).
  do 2 eexists. split; [reflexivity|].
  unfold well_shaped in *. cbn [shape values].
  assert (Lm : List.length (values mem) = List.length (values inputs)) by congruence.
  assert (Ls : List.length (values spike) = List.length (values inputs)) by congruence.
  split; [reflexivity|]. split; [reflexivity|].
  split; [rewrite zip_with3_length; auto|].
  split; [rewrite zip_with3_length; auto|].
  intros k i m s Hi Hk1 Hk2.
  rewrite (zip_with3_nth_error lif_mem_float32 _ _ _ k i m s Hi Hk1 Hk2).
  rewrite (zip_with3_nth_error lif_spike_float32 _ _ _ k i m s Hi Hk1 Hk2).
  split; reflexivity.
Qed.

Lemma LIF_mem_update_float32_steps_witness :
  let inputs := mkTensor [2%nat]
                  [Float32.of_Q ((3 # 8) + (1 # 32768) + (1 # 33554432));
                   Float32.of_Q 0.3] in
  let mem := mkTensor [2%nat] [Float32.of_Q 1; Float32.of_Q 20] in
  let spike := mkTensor [2%nat] [Float32.of_Q 0; Float32.of_Q 1] in
  well_shaped inputs /\ well_shaped mem /\ well_shaped spike /\
  shape mem = shape inputs /\ shape spike = shape inputs /\
  (exists mem' spike' : tensor spec_float,
    Float32.LIF_mem_update inputs mem spike = Ok (mem', spike') /\
    shape mem' = shape inputs /\ shape spike' = shape inputs /\
    well_shaped mem' /\ well_shaped spike' /\
    forall (k : nat) (i m s : spec_float),
      nth_error (values inputs) k = Some i ->
      nth_error (values mem) k = Some m ->
      nth_error (values spike) k = Some s ->
      let n := Float32.of_Q (inject_Z (2 ^ 14)) in
      let lo := Float32.of_Q (- 14.99993896484375) in
      let hi := Float32.of_Q 14.99993896484375 in
      let mem1 := Float32.mul (Float32.mul m (Float32.of_Q 0.5))
                              (Float32.sub (Float32.of_Q 1) s) in
      let mem2 := Float32.clip (Float32.div (Float32.round (Float32.mul mem1 n)) n)
                               lo hi in
      let mem3 := Float32.add mem2 i in
      let mem4 := Float32.clip (Float32.div (Float32.round (Float32.mul mem3 n)) n)
                               lo hi in
      nth_error (values mem') k = Some mem4 /\
      nth_error (values spike') k
      = Some (if SFltb (Float32.of_Q 0) (Float32.sub mem4 (Float32.of_Q 0.875))
              then Float32.of_Q 1 else Float32.of_Q 0)) /\
  Float32.represents (Float32.of_Q 0.5) 0.5 /\
  Float32.represents (Float32.of_Q 1) 1 /\
  Float32.represents (Float32.of_Q (inject_Z (2 ^ 14))) (inject_Z (2 ^ 14)) /\
  Float32.represents (Float32.of_Q 14.99993896484375) 14.99993896484375 /\
  Float32.represents (Float32.of_Q (- 14.99993896484375)) (- 14.99993896484375) /\
  Float32.represents (Float32.of_Q 0.875) 0.875 /\
  Float32.represents (Float32.of_Q 0) 0.
Proof.
  intros inputs mem spike.
  repeat (split; [reflexivity|]).
  apply (LIF_mem_update_float32_steps inputs mem spike); reflexivity.
Defined.

End LIFProperties.

(** ** The input encoding of the recurrent cells *)

Section EncodingProperties.
Local Open Scope Q_scope.

Lemma zip_with3_repeat {A B C D : Type} (f : A -> B -> C -> D)
    (l : list A) (b : B) (c : C) :
  zip_with3 f l (repeat b (List.length l)) (repeat c (List.length l))
  = map (fun a => f a b c) l.
Proof. induction l as [|a l IH]; cbn; auto. now rewrite IH. Qed.

Lemma membrane_grid_comp (x y : Q) : x == y -> membrane_grid x = membrane_grid y.
Proof.
  intros H. unfold membrane_grid.
  assert (E : x * 2 ^ 14 == y * 2 ^ 14) by now rewrite H.
  now rewrite (round_comp _ _ E).
Qed.

Lemma lif_mem_from_rest (v : Q) : lif_mem v 0 0 = membrane_grid v.
Proof.
  unfold lif_mem. apply membrane_grid_comp.
  assert (E : membrane_grid (0 * 0.5 * (1 - 0)) == 0) by (vm_compute; reflexivity).
  rewrite E. ring.
Qed.

Lemma lif_spike_from_rest (v : Q) : lif_spike v 0 0 = encoded_spike v.
Proof.
  unfold lif_spike, encoded_spike. rewrite lif_mem_from_rest.
  destruct (Qlt_le_dec 0 (membrane_grid v - 0.875)),
           (Qlt_le_dec 0.875 (membrane_grid v)); auto; lra.
Qed.

Lemma encode_input_values (x : tensor Q) (d0 d1 d2 : nat) :
  shape x = [d0; d1; d2] -> well_shaped x ->
  encode_input x
  = Ok (mkTensor [d0; d1; d2] (map membrane_grid (values x)),
        mkTensor [d0; d1; d2] (map encoded_spike (values x))).
Proof.
  intros Hs Hw. unfold encode_input, size. rewrite Hs. cbn [nth_error bind].
  rewrite LIF_mem_update_values by (cbn [zeros shape]; congruence).
  unfold zeros. cbn [values]. rewrite Hs.
  unfold well_shaped in Hw. rewrite Hs in Hw. rewrite <- Hw.
  rewrite !zip_with3_repeat.
  rewrite (map_ext _ _ lif_mem_from_rest), (map_ext _ _ lif_spike_from_rest).
  reflexivity.
Qed.

Lemma flat_map_map_rows {A B : Type} (f : A -> B) (g : nat -> nat) (n : nat)
    (l : list A) (idx : list nat) :
  flat_map (fun b => firstn n (skipn (g b) (map f l))) idx
  = map f (flat_map (fun b => firstn n (skipn (g b) l)) idx).
Proof.
  induction idx as [|b idx IH]; cbn [flat_map map]; auto.
  rewrite IH, map_app, skipn_map, firstn_map. reflexivity.
Qed.

Lemma select_middle_tmap {A B : Type} (f : A -> B) (t : tensor A) (i : nat) :
  select_middle (tmap f t) i
  = match select_middle t i with
    | Ok s => Ok (tmap f s)
    | Raise e => Raise e
    end.
Proof.
  unfold select_middle, tmap. cbn [shape values].
  destruct (shape t) as [|d0 [|d1 [|d2 [|? ?]]]]; auto.
  destruct (i <? d1)%nat; auto.
  cbn [shape values]. now rewrite flat_map_map_rows.
Qed.

(** C10: in each of the four cells the encoding pass is one LIF update from
    an all-zero membrane and spike tensor over the whole (batch, time,
    feature) input, so each encoded spike is the threshold of its own input
    element: [1] exactly where
    [clip(round(x * 2^14) / 2^14, -14.99993896484375, 14.99993896484375) > 0.875];
    the slice at time step [t] is that function of the input slice at [t]
    alone.  [OLSGRU.forward] returns this tensor. *)
Theorem Encoding_spike_per_timestep (c : cell) (x : tensor Q) (d0 d1 d2 : nat) :
  shape x = [d0; d1; d2] -> well_shaped x ->
  exists spikes : tensor Q,
    Encoding_spike c x = Ok spikes /\
    (forall (hidden_size : nat) (hidden_spike : option (tensor Q)),
        OLSGRU_forward hidden_size x hidden_spike = Ok spikes) /\
    shape spikes = [d0; d1; d2] /\
    values spikes
    = map (fun v => if Qlt_le_dec 0.875
                         (clip (round (v * 2 ^ 14) / 2 ^ 14)
                               (- 14.99993896484375) 14.99993896484375)
                    then 1 else 0) (values x) /\
    forall t : nat, (t < d1)%nat ->
      exists x_t : tensor Q,
        select_middle x t = Ok x_t /\
        select_middle spikes t = Ok (tmap encoded_spike x_t).
Proof.
  intros Hs Hw.
  exists (tmap encoded_spike x).
  assert (E : Encoding_spike c x = Ok (tmap encoded_spike x)).
  { unfold Encoding_spike. rewrite (encode_input_values x d0 d1 d2 Hs Hw).
    unfold tmap. rewrite Hs. destruct c; reflexivity. }
  split; [exact E|].
  split.
  { intros hidden_size hidden_spike. unfold OLSGRU_forward, size. rewrite Hs.
    destruct hidden_spike; cbn [nth_error bind];
      rewrite LIF_mem_update_values by (cbn [zeros shape]; congruence);
      cbn [bind snd]; unfold zeros; cbn [values]; rewrite Hs;
      unfold well_shaped in Hw; rewrite Hs in Hw; rewrite <- Hw;
      rewrite !zip_with3_repeat, (map_ext _ _ lif_spike_from_rest);
      unfold tmap; rewrite Hs; reflexivity. }
  split; [exact Hs|].
  split; [reflexivity|].
  intros t Ht. rewrite select_middle_tmap.
  unfold select_middle. rewrite Hs.
  apply Nat.ltb_lt in Ht. rewrite Ht.
  eexists. split; reflexivity.
Qed.

Lemma Encoding_spike_per_timestep_witness :
  let x := mkTensor [1; 2; 2]%nat [1; 0.3; 0.875; 0.9] in
  shape x = [1; 2; 2]%nat /\ well_shaped x /\
  exists spikes : tensor Q,
    Encoding_spike OLSGRU x = Ok spikes /\
    (forall (hidden_size : nat) (hidden_spike : option (tensor Q)),
        OLSGRU_forward hidden_size x hidden_spike = Ok spikes) /\
    shape spikes = [1; 2; 2]%nat /\
    values spikes
    = map (fun v => if Qlt_le_dec 0.875
                         (clip (round (v * 2 ^ 14) / 2 ^ 14)
                               (- 14.99993896484375) 14.99993896484375)
                    then 1 else 0) (values x) /\
    forall t : nat, (t < 2)%nat ->
      exists x_t : tensor Q,
        select_middle x t = Ok x_t /\
        select_middle spikes t = Ok (tmap encoded_spike x_t).
Proof.
  intros x.
  split; [reflexivity|]. split; [reflexivity|].
  apply (Encoding_spike_per_timestep OLSGRU x 1 2 2); reflexivity.
Defined.

End EncodingProperties.

(** ** The quantized linear layer *)

Section BinarizeLinearProperties.
Local Open Scope Q_scope.

(** C5, as stated, fails: the output adds the live bias 0.3, not its 16-bit
    quantization 4915/16384. *)
Lemma forward_bias_not_quantized :
  exists out claimed : tensor Q,
    snd (BinarizeLinear_forward layer_with_bias (mkTensor [1; 1]%nat [0])) = Ok out /\
    claimed_output layer_with_bias (mkTensor [1; 1]%nat [0]) = Ok claimed /\
    Forall2 Qeq (values out) [0.3] /\
    Forall2 Qeq (values claimed) [4915 # 16384] /\
    ~ tensor_eq out claimed.
Proof.
  do 2 eexists.
  split; [vm_compute; reflexivity|].
  split; [vm_compute; reflexivity|].
  split; [repeat constructor|].
  split; [repeat constructor|].
  intros [_ H]. inversion H as [|? ? ? ? E _]; subst.
  vm_compute in E. discriminate.
Qed.

(** C5, amended: when the layer has a bias and the product with the
    quantized shadow weight succeeds, the call leaves the bias with its
    live value unchanged and with a shadow (the one it had, else a copy of
    the live value), and the output is that product plus the live bias,
    which is not quantized. *)
Theorem forward_adds_live_bias (self : BinarizeLinear) (input : tensor Q)
    (b : nn_Parameter) (out : tensor Q) :
  bias self = Some b ->
  linear input (Quantize (shadow (weight self)) 16) = Ok out ->
  snd (BinarizeLinear_forward self input) = add_expanded out (data b) /\
  bias (fst (BinarizeLinear_forward self input))
  = Some (mkParameter (data b)
            (Some (match org b with Some o => o | None => data b end))).
Proof.
  intros Hb Hl. unfold BinarizeLinear_forward.
  cbn [data]. unfold Binarize. rewrite Hl, Hb. cbn [fst snd data bias].
  split; reflexivity.
Qed.

Lemma forward_adds_live_bias_witness :
  let b := mkParameter (mkTensor [1%nat] [0.3]) None in
  let out := mkTensor [1; 1]%nat [0] in
  bias layer_with_bias = Some b /\
  linear (mkTensor [1; 1]%nat [0]) (Quantize (shadow (weight layer_with_bias)) 16)
  = Ok (mkTensor [1; 1]%nat [0 + 0 * (16384 # 16384)]) /\
  snd (BinarizeLinear_forward layer_with_bias (mkTensor [1; 1]%nat [0]))
  = add_expanded (mkTensor [1; 1]%nat [0 + 0 * (16384 # 16384)]) (data b) /\
  bias (fst (BinarizeLinear_forward layer_with_bias (mkTensor [1; 1]%nat [0])))
  = Some (mkParameter (data b)
            (Some (match org b with Some o => o | None => data b end))).
Proof.
  intros b out.
  split; [reflexivity|]. split; [vm_compute; reflexivity|].
  apply (forward_adds_live_bias layer_with_bias (mkTensor [1; 1]%nat [0]) b);
    [reflexivity | vm_compute; reflexivity].
Defined.

(** C8: two forward calls on one input, nothing in between: the second call
    returns what the first returned and leaves the layer as the first left
    it; a shadow that exists before a call is still the same after it. *)
Theorem forward_twice_same (self : BinarizeLinear) (input : tensor Q) :
  let first := BinarizeLinear_forward self input in
  let second := BinarizeLinear_forward (fst first) input in
  snd second = snd first /\
  fst second = fst first /\
  org (weight (fst first)) = Some (shadow (weight self)) /\
  match org (weight self) with
  | Some o => org (weight (fst first)) = Some o
  | None => True
  end /\
  match bias self with
  | Some b =>
      match org b with
      | Some o => exists b', bias (fst first) = Some b' /\ org b' = Some o
      | None => True
      end
  | None => bias (fst first) = None
  end.
Proof.
  cbv zeta. unfold BinarizeLinear_forward. cbn [data].
  set (w := Binarize (shadow (weight self))).
  assert (Hw : match org (weight self) with
               | Some o => Some (shadow (weight self)) = Some o
               | None => True
               end).
  { unfold shadow. destruct (org (weight self)); reflexivity. }
  destruct (linear input w) as [out|e] eqn:El.
  - destruct (bias self) as [b|] eqn:Eb;
      cbn [fst snd weight bias org data shadow]; fold w; rewrite El;
      cbn [fst snd weight bias org data shadow].
    + split; [reflexivity|]. split; [reflexivity|]. split; [reflexivity|].
      split; [exact Hw|].
      unfold shadow. destruct (org b) as [o|]; [|exact I].
      eexists; split; reflexivity.
    + split; [reflexivity|]. split; [reflexivity|]. split; [reflexivity|].
      split; [exact Hw|reflexivity].
  - cbn [fst snd weight bias org data shadow]; fold w; rewrite El;
      cbn [fst snd weight bias org data shadow].
    split; [reflexivity|]. split; [reflexivity|]. split; [reflexivity|].
    split; [exact Hw|].
    destruct (bias self) as [b|]; [|reflexivity].
    destruct (org b) as [o|] eqn:Eo; [|exact I].
    exists b; split; [reflexivity|exact Eo].
Qed.

End BinarizeLinearProperties.

(** ** The surrogate estimator, backward pass *)

Section BackwardProperties.
Local Open Scope R_scope.

Lemma sqrt_2PI_neq_0 : sqrt (2 * PI) <> 0.
Proof.
  apply Rgt_not_eq, sqrt_lt_R0.
  apply Rmult_lt_0_compat; [lra | apply PI_RGT_0].
Qed.

(** The expression of [gaussian] is the normal density. *)
Lemma gaussian_is_normal_density (v mu sigma : R) :
  sigma <> 0 ->
  exp (- ((v - mu) ^ 2) / (2 * sigma ^ 2)) / sqrt (2 * PI) / sigma
  = normal_density v mu sigma.
Proof.
  intros Hs. unfold normal_density.
  replace (- ((v - mu) ^ 2) / (2 * sigma ^ 2))
    with (- ((v - mu) * (v - mu)) / (2 * (sigma * sigma)))
    by (simpl; field; exact Hs).
  field. split; [exact sqrt_2PI_neq_0 | exact Hs].
Qed.

Lemma gaussian_values (x : tensor R) (mu sigma : R) :
  sigma <> 0 ->
  gaussian x mu sigma = tmap (fun v => normal_density v mu sigma) x.
Proof.
  intros Hs. unfold gaussian, tmap. f_equal.
  apply map_ext. intros v. now apply gaussian_is_normal_density.
Qed.

(** The kernel tensor [temp] of [backward] and its result, for every mode. *)
Lemma backward_values (mode : string) (x g : tensor R) :
  shape g = shape x ->
  AcFun_adp.backward mode (mkCtx [x]) g
  = Ok (mkTensor (shape x)
          (zip_with (fun gi xi => gi * kernel mode xi * 0.5) (values g) (values x))).
Proof.
  intros Hg. unfold AcFun_adp.backward. cbn [saved_tensors].
  assert (Hl : lens <> 0) by (unfold lens; lra).
  assert (H6 : 6.0 * lens <> 0) by (unfold lens; lra).
  assert (Temp : forall (E : result (tensor R)) (k : R -> R),
             (forall v, k v = kernel mode v) ->
             E = Ok (mkTensor (shape x) (map k (values x))) ->
             bind E (fun temp =>
               bind (tzip Rmult g temp)
                    (fun g0 => Ok (tmap (fun v => v * gamma) g0)))
             = Ok (mkTensor (shape x)
                     (zip_with (fun gi xi => gi * kernel mode xi * 0.5)
                               (values g) (values x)))).
  { intros E k Hk ->. cbn [bind].
    rewrite tzip_same_shape by exact Hg. cbn [bind].
    unfold tmap. cbn [shape values].
    rewrite Hg, zip_with_map_r, map_zip_with. do 2 f_equal.
    apply zip_with_ext. intros a b _ _. rewrite Hk. unfold gamma. reflexivity. }
  unfold kernel in Temp |- *.
  destruct (String.eqb mode "G").
  { apply (Temp _ (fun v => exp (- (v ^ 2) / (2 * lens ^ 2)) / sqrt (2 * PI) / lens));
      [|reflexivity].
    intros v. rewrite <- (gaussian_is_normal_density v 0 0.5) by lra.
    unfold lens. replace (v - 0) with v by ring. reflexivity. }
  destruct (String.eqb mode "MG").
  { apply (Temp _ (fun v => normal_density v 0 lens * (1.0 + 0.15)
                            - normal_density v lens (6.0 * lens) * 0.15
                            - normal_density v (- lens) (6.0 * lens) * 0.15)).
    - intros v. unfold lens.
      replace 6.0 with 6 by lra. replace 1.0 with 1 by lra.
      replace (- (0.5)) with (-0.5) by lra. reflexivity.
    - rewrite !gaussian_values by (unfold lens; lra).
      rewrite tzip_same_shape by reflexivity. cbn [bind].
      rewrite tzip_same_shape by reflexivity.
      unfold tmap. cbn [shape values]. do 2 f_equal.
      repeat first [ rewrite map_map | rewrite zip_with_map_l
                   | rewrite zip_with_map_r | rewrite zip_with_same ].
      reflexivity. }
  destruct (String.eqb mode "linear").
  { apply (Temp _ (fun v => Rmax (1 - Rabs v) 0)).
    - intros v. apply Rmax_comm.
    - unfold AcFun_adp.relu, tmap. cbn [shape values]. now rewrite !map_map. }
  destruct (String.eqb mode "slayer").
  { apply (Temp _ (fun v => exp (-5 * Rabs v))).
    - intros v. reflexivity.
    - unfold tmap. cbn [shape values]. now rewrite !map_map. }
  destruct (String.eqb mode "sigmoid").
  { apply (Temp _ (fun v => exp (- v) / (1 + exp (- v)) ^ 2)).
    - intros v. f_equal. simpl. ring.
    - rewrite tzip_same_shape by reflexivity.
      unfold tmap. cbn [shape values]. do 2 f_equal.
      repeat first [ rewrite map_map | rewrite zip_with_map_l
                   | rewrite zip_with_map_r | rewrite zip_with_same ].
      reflexivity. }
  apply (Temp _ (fun v => exp (- Rabs v))).
  - reflexivity.
  - unfold tmap. cbn [shape values]. now rewrite !map_map.
Qed.

(** C1: with the saved pre-activation [x] and an upstream gradient [g] of
    the same shape, the backward pass returns, element by element,
    [g * kernel(x) * gamma] with [gamma = 0.5], where [kernel] is the normal
    density of mean 0 and scale 0.5 for ['G'], the three-density
    combination for ['MG'], [relu(1 - |x|)] for ['linear'], [exp(-5|x|)] for
    ['slayer'], [exp(-x) / (1 + exp(-x))^2] for ['sigmoid'] and [exp(-|x|)]
    for every other mode. *)
Theorem backward_kernel_times_gamma (mode : string) (x g : tensor R) :
  shape g = shape x ->
  exists grad : tensor R,
    AcFun_adp.backward mode (mkCtx [x]) g = Ok grad /\
    shape grad = shape x /\
    gamma = 0.5 /\
    values grad
    = zip_with (fun gi xi => gi * kernel mode xi * 0.5) (values g) (values x) /\
    forall (k : nat) (gi xi : R),
      nth_error (values g) k = Some gi ->
      nth_error (values x) k = Some xi ->
      nth_error (values grad) k = Some (gi * kernel mode xi * 0.5).
Proof.
  intros Hg. rewrite (backward_values mode x g Hg).
  eexists. split; [reflexivity|]. cbn [shape values].
  split; [reflexivity|]. split; [reflexivity|]. split; [reflexivity|].
  intros k gi xi Hgi Hxi.
  exact (zip_with_nth_error (fun a b => a * kernel mode b * 0.5) _ _ k gi xi Hgi Hxi).
Qed.

Lemma backward_kernel_times_gamma_witness :
  let x := mkTensor [1%nat] [0] in
  let g := mkTensor [1%nat] [1] in
  shape g = shape x /\
  exists grad : tensor R,
    AcFun_adp.backward "G" (mkCtx [x]) g = Ok grad /\
    shape grad = shape x /\
    gamma = 0.5 /\
    values grad
    = zip_with (fun gi xi => gi * kernel "G" xi * 0.5) (values g) (values x) /\
    forall (k : nat) (gi xi : R),
      nth_error (values g) k = Some gi ->
      nth_error (values x) k = Some xi ->
      nth_error (values grad) k = Some (gi * kernel "G" xi * 0.5).
Proof.
  intros x g. split; [reflexivity|].
  apply (backward_kernel_times_gamma "G" x g). reflexivity.
Defined.

Lemma kernel_unknown_mode (mode : string) (v : R) :
  ~ In mode documented_modes -> kernel mode v = exp (- Rabs v).
Proof.
  intros H. unfold kernel.
  assert (E : forall m, In m documented_modes -> String.eqb mode m = false).
  { intros m Hm. apply String.eqb_neq. intros ->. exact (H Hm). }
  rewrite !E by (unfold documented_modes; cbn [In]; auto 10).
  reflexivity.
Qed.

Lemma bind_never_raises {A B : Type} (e : exception) (r : result A)
    (k : A -> result B) :
  r <> Raise e -> (forall a, k a <> Raise e) -> bind r k <> Raise e.
Proof.
  intros Hr Hk. destruct r as [a|e']; cbn [bind]; [apply Hk|].
  intros [= ->]. now apply Hr.
Qed.

Lemma tzip_raises_RuntimeError_only {A B C : Type} (f : A -> B -> C)
    (a : tensor A) (b : tensor B) :
  tzip f a b <> Raise ConfigurationError.
Proof. unfold tzip. destruct (shape_eqb (shape a) (shape b)); discriminate. Qed.

Lemma backward_never_ConfigurationError (mode : string) (c : ctx R) (g : tensor R) :
  AcFun_adp.backward mode c g <> Raise ConfigurationError.
Proof.
  unfold AcFun_adp.backward.
  destruct (saved_tensors c) as [|input [|? ?]]; try discriminate.
  apply bind_never_raises.
  - repeat match goal with
           | |- (if ?b then _ else _) <> _ => destruct b
           end;
      try discriminate;
      try apply tzip_raises_RuntimeError_only.
    apply bind_never_raises; [|intros]; apply tzip_raises_RuntimeError_only.
  - intros temp. apply bind_never_raises;
      [apply tzip_raises_RuntimeError_only | discriminate].
Qed.

(** C6, as stated, fails: for the unknown mode ['tanh'] the backward pass
    returns a gradient, computed with the fallback kernel [exp(-|x|)], and
    raises nothing. *)
Lemma backward_unknown_mode_returns_gradient :
  ~ In "tanh"%string documented_modes /\
  AcFun_adp.backward "tanh" (mkCtx [mkTensor [1%nat] [0]]) (mkTensor [1%nat] [1])
  = Ok (mkTensor [1%nat] [1 * exp (- Rabs 0) * 0.5]) /\
  1 * exp (- Rabs 0) * 0.5 = 0.5 /\
  AcFun_adp.backward "tanh" (mkCtx [mkTensor [1%nat] [0]]) (mkTensor [1%nat] [1])
  <> Raise ConfigurationError.
Proof.
  assert (Hn : ~ In "tanh"%string documented_modes).
  { unfold documented_modes. cbn [In].
    intros [H|[H|[H|[H|[H|[]]]]]]; discriminate H. }
  split; [exact Hn|].
  split.
  { rewrite backward_values by reflexivity. cbn [shape values zip_with].
    now rewrite (kernel_unknown_mode "tanh" 0 Hn). }
  split.
  { rewrite Rabs_R0, Ropp_0, exp_0. lra. }
  apply backward_never_ConfigurationError.
Qed.

(** C6, amended: for a mode outside the five documented names the backward
    pass does not fail: on a gradient of the shape of the saved input it
    returns [g * exp(-|x|) * 0.5], and on no input at all does it raise
    [ConfigurationError]. *)
Theorem backward_unknown_mode_falls_back (mode : string) (x g : tensor R) :
  ~ In mode documented_modes ->
  shape g = shape x ->
  AcFun_adp.backward mode (mkCtx [x]) g
  = Ok (mkTensor (shape x)
          (zip_with (fun gi xi => gi * exp (- Rabs xi) * 0.5) (values g) (values x))) /\
  forall (c : ctx R) (g' : tensor R),
    AcFun_adp.backward mode c g' <> Raise ConfigurationError.
Proof.
  intros Hn Hg. split.
  - rewrite (backward_values mode x g Hg). do 2 f_equal.
    apply zip_with_ext. intros a b _ _.
    now rewrite (kernel_unknown_mode mode b Hn).
  - intros c g'. apply backward_never_ConfigurationError.
Qed.

Lemma backward_unknown_mode_falls_back_witness :
  let x := mkTensor [2%nat] [0; 1] in
  let g := mkTensor [2%nat] [1; 1] in
  ~ In "tanh"%string documented_modes /\
  shape g = shape x /\
  AcFun_adp.backward "tanh" (mkCtx [x]) g
  = Ok (mkTensor (shape x)
          (zip_with (fun gi xi => gi * exp (- Rabs xi) * 0.5) (values g) (values x))) /\
  forall (c : ctx R) (g' : tensor R),
    AcFun_adp.backward "tanh" c g' <> Raise ConfigurationError.
Proof.
  intros x g.
  assert (Hn : ~ In "tanh"%string documented_modes).
  { unfold documented_modes. cbn [In].
    intros [H|[H|[H|[H|[H|[]]]]]]; discriminate H. }
  split; [exact Hn|]. split; [reflexivity|].
  apply (backward_unknown_mode_falls_back "tanh" x g Hn). reflexivity.
Defined.

End BackwardProperties.

(** ** Hex packing *)

Section HexProperties.

Lemma list_ind4 {A : Type} (P : list A -> Prop) :
  P [] -> (forall a, P [a]) -> (forall a b, P [a; b]) -> (forall a b c, P [a; b; c]) ->
  (forall a b c d l, P l -> P (a :: b :: c :: d :: l)) ->
  forall l, P l.
Proof.
  intros H0 H1 H2 H3 H4 l.
  assert (H : forall n l, (List.length l <= n)%nat -> P l).
  { clear l. induction n as [|n IH]; intros l Hl.
    - destruct l; [exact H0 | cbn in Hl; lia].
    - destruct l as [|a [|b [|c [|d l]]]]; auto.
      apply H4, IH. cbn in Hl. lia. }
  apply (H (List.length l)). lia.
Qed.

Lemma to_int_bit (v : Q) :
  (v == 0 \/ v == 1)%Q -> to_int v = Z_of_bit (bit_of v).
Proof.
  intros [H|H]; unfold to_int, bit_of.
  - assert (Hle : Qle_bool 0 v = true) by (apply Qle_bool_iff; rewrite H; discriminate).
    assert (Hb : Qeq_bool v 1 = false).
    { destruct (Qeq_bool v 1) eqn:E; auto.
      apply Qeq_bool_iff in E. rewrite H in E. discriminate E. }
    rewrite Hle, Hb, (Qfloor_comp v 0 H). reflexivity.
  - assert (Hle : Qle_bool 0 v = true) by (apply Qle_bool_iff; rewrite H; discriminate).
    assert (Hb : Qeq_bool v 1 = true) by (apply Qeq_bool_iff; exact H).
    rewrite Hle, Hb, (Qfloor_comp v 1 H). reflexivity.
Qed.

Lemma to_int_bits (l : list Q) :
  Forall (fun v => v == 0 \/ v == 1)%Q l ->
  map to_int l = map Z_of_bit (map bit_of l).
Proof.
  induction 1 as [|v l Hv _ IH]; cbn [map]; auto.
  now rewrite IH, (to_int_bit v Hv).
Qed.

Lemma group4_map {A B : Type} (f : A -> B) (l : list A) :
  group4 (map f l) = map (map f) (group4 l).
Proof.
  induction l as [| | | |a b c d l IH] using list_ind4; auto.
  cbn [map group4]. now rewrite IH.
Qed.

Lemma group4_length4 {A : Type} (l : list A) :
  Forall (fun g => List.length g = 4%nat) (group4 l).
Proof.
  induction l as [| | | |a b c d l IH] using list_ind4; cbn [group4]; auto.
Qed.

Lemma group4_count {A : Type} (l : list A) :
  List.length (group4 l) = (List.length l / 4)%nat.
Proof.
  induction l as [| | | |a b c d l IH] using list_ind4; auto.
  cbn [group4 List.length]. rewrite IH.
  replace (S (S (S (S (List.length l))))) with (List.length l + 1 * 4)%nat by lia.
  rewrite Nat.div_add by lia. lia.
Qed.

(** The padding of the code on integers is [pad4] on bits. *)
Lemma padding_bits (bs : list bool) :
  (if negb (List.length (map Z_of_bit bs) mod 4 =? 0)%nat
   then map Z_of_bit bs ++ repeat 0%Z (4 - List.length (map Z_of_bit bs) mod 4)%nat
   else map Z_of_bit bs)
  = map Z_of_bit (pad4 bs).
Proof.
  unfold pad4. rewrite length_map, map_app, map_repeat. cbn [Z_of_bit].
  assert (Hr : (List.length bs mod 4 < 4)%nat) by (apply Nat.mod_upper_bound; lia).
  destruct (List.length bs mod 4 =? 0)%nat eqn:E; cbn [negb].
  - apply Nat.eqb_eq in E. rewrite E. cbn. now rewrite app_nil_r.
  - apply Nat.eqb_neq in E.
    rewrite (Nat.mod_small (4 - List.length bs mod 4) 4) by lia. reflexivity.
Qed.

Lemma hex_of_group_bits (g : list bool) :
  List.length g = 4%nat ->
  hex_of_group (rev (map Z_of_bit g)) = Ok (hex_digit (nibble_value g)) /\
  String.length (hex_digit (nibble_value g)) = 1%nat.
Proof.
  destruct g as [|a [|b [|c [|d [|? ?]]]]]; try discriminate. intros _.
  destruct a, b, c, d; split; vm_compute; reflexivity.
Qed.

Lemma hex_loop_bits (groups : list (list bool)) :
  Forall (fun g => List.length g = 4%nat) groups ->
  hex_loop (map (@rev Z) (map (map Z_of_bit) groups))
  = Ok (map (fun g => hex_digit (nibble_value g)) groups).
Proof.
  induction 1 as [|g groups Hg _ IH]; cbn [map hex_loop]; auto.
  rewrite (proj1 (hex_of_group_bits g Hg)). cbn [bind].
  rewrite IH. reflexivity.
Qed.

Lemma pad4_length (bs : list bool) :
  List.length (pad4 bs) = (4 * ((List.length bs + 3) / 4))%nat.
Proof.
  unfold pad4. rewrite length_app, repeat_length.
  pose proof (Nat.div_mod_eq (List.length bs) 4) as E1.
  pose proof (Nat.mod_upper_bound (List.length bs) 4) as E2.
  pose proof (Nat.div_mod_eq (List.length bs + 3) 4) as E3.
  pose proof (Nat.mod_upper_bound (List.length bs + 3) 4) as E4.
  pose proof (Nat.div_mod_eq (4 - List.length bs mod 4) 4) as E5.
  pose proof (Nat.mod_upper_bound (4 - List.length bs mod 4) 4) as E6.
  lia.
Qed.

(** C9: on a binary-valued tensor [Get_HexData] returns the packing of the
    specification (flatten, pad with zero bits to a multiple of 4, reverse
    the bits of each group of 4, one upper-case hex digit per group, groups
    in reverse order): one single-character text per group; and the
    literal input [1,0,1,0,1,1,0,0] gives the two digits 3 and 5. *)
Theorem Get_HexData_packing (t : tensor Q) :
  binary_valued t ->
  Get_HexData t = Ok (hex_packing (map bit_of (values t))) /\
  Forall (fun s => String.length s = 1%nat) (hex_packing (map bit_of (values t))) /\
  List.length (hex_packing (map bit_of (values t)))
  = ((List.length (values t) + 3) / 4)%nat /\
  Get_HexData (mkTensor [8%nat] [1; 0; 1; 0; 1; 1; 0; 0]%Q)
  = Ok ["3"; "5"]%string.
Proof.
  intros Hb. unfold binary_valued in Hb.
  split; [|split; [|split]].
  - unfold Get_HexData, tmap. cbn [values].
    rewrite (to_int_bits _ Hb), padding_bits, group4_map.
    rewrite hex_loop_bits by apply group4_length4.
    reflexivity.
  - unfold hex_packing. apply Forall_rev, Forall_forall.
    intros s Hs. apply in_map_iff in Hs. destruct Hs as [g [<- Hg]].
    pose proof (group4_length4 (pad4 (map bit_of (values t)))) as H4.
    rewrite Forall_forall in H4.
    exact (proj2 (hex_of_group_bits g (H4 g Hg))).
  - unfold hex_packing.
    rewrite length_rev, length_map, group4_count, pad4_length, length_map.
    rewrite Nat.mul_comm, Nat.div_mul by lia. reflexivity.
  - vm_compute. reflexivity.
Qed.

Lemma Get_HexData_packing_witness :
  let t := mkTensor [5%nat] [1; 1; 0; 1; 1]%Q in
  binary_valued t /\
  Get_HexData t = Ok (hex_packing (map bit_of (values t))) /\
  Forall (fun s => String.length s = 1%nat) (hex_packing (map bit_of (values t))) /\
  List.length (hex_packing (map bit_of (values t)))
  = ((List.length (values t) + 3) / 4)%nat /\
  Get_HexData (mkTensor [8%nat] [1; 0; 1; 0; 1; 1; 0; 0]%Q)
  = Ok ["3"; "5"]%string.
Proof.
  intros t.
  assert (Hb : binary_valued t).
  { unfold binary_valued, t. cbn [values].
    repeat constructor; (left; reflexivity) || (right; reflexivity). }
  split; [exact Hb|].
  apply (Get_HexData_packing t Hb).
Defined.

End HexProperties.

(* ================================================================== *)
(** * Further properties of the code *)
(* ================================================================== *)

(** ** More on rounding *)

Section RoundFacts.
Local Open Scope Q_scope.

Lemma inject_Z_succ (k : Z) : inject_Z (k + 1) == inject_Z k + 1.
Proof. rewrite inject_Z_plus. reflexivity. Qed.

(** The three cases of [round_half_even], with what each knows. *)
Lemma round_half_even_cases (q : Q) :
  let f := Qfloor q in
  (q - inject_Z f < 1 # 2 /\ round_half_even q = f) \/
  (1 # 2 < q - inject_Z f /\ round_half_even q = (f + 1)%Z) \/
  (q - inject_Z f == 1 # 2 /\
   round_half_even q = (if Z.even f then f else (f + 1)%Z)).
Proof.
  cbv zeta. unfold round_half_even.
  destruct (Qcompare_spec (q - inject_Z (Qfloor q)) (1 # 2)) as [E|L|G]; auto.
Qed.

Lemma round_half_even_near_floor (q : Q) :
  (Qfloor q <= round_half_even q <= Qfloor q + 1)%Z.
Proof.
  destruct (round_half_even_cases q) as [[_ ->]|[[_ ->]|[_ ->]]]; try lia.
  destruct (Z.even (Qfloor q)); lia.
Qed.

(** Rounding moves a value by at most one half. *)
Lemma round_half_even_error (q : Q) :
  - (1 # 2) <= inject_Z (round_half_even q) - q <= 1 # 2.
Proof.
  pose proof (Qfloor_le q) as Hlo. pose proof (Qlt_floor q) as Hhi.
  rewrite inject_Z_succ in Hhi.
  destruct (round_half_even_cases q) as [[H ->]|[[H ->]|[H ->]]].
  - lra.
  - rewrite inject_Z_succ. lra.
  - destruct (Z.even (Qfloor q)); [|rewrite inject_Z_succ]; lra.
Qed.

(** Rounding is monotone. *)
Lemma round_half_even_mono (x y : Q) :
  x <= y -> (round_half_even x <= round_half_even y)%Z.
Proof.
  intros Hxy.
  pose proof (Qfloor_resp_le x y Hxy) as Hf.
  pose proof (round_half_even_near_floor x) as Hx.
  pose proof (round_half_even_near_floor y) as Hy.
  destruct (Z.eq_dec (Qfloor x) (Qfloor y)) as [E|N]; [|lia].
  destruct (round_half_even_cases x) as [[Cx Rx]|[[Cx Rx]|[Cx Rx]]];
    destruct (round_half_even_cases y) as [[Cy Ry]|[[Cy Ry]|[Cy Ry]]];
    rewrite Rx, Ry; rewrite E in *; try lia;
    try (destruct (Z.even (Qfloor y)); lia);
    exfalso; lra.
Qed.

Lemma round_mono (x y : Q) : x <= y -> round x <= round y.
Proof.
  intros H. unfold round. rewrite <- Zle_Qle. now apply round_half_even_mono.
Qed.

Lemma clip_mono (x y lo hi : Q) : x <= y -> clip x lo hi <= clip y lo hi.
Proof.
  intros H. unfold clip.
  apply Q.min_le_compat_r, Q.max_le_compat_r, H.
Qed.

Lemma Qdiv_le_mono (x y n : Q) : 0 < n -> x <= y -> x / n <= y / n.
Proof.
  intros Hn H. unfold Qdiv. apply Qmult_le_compat_r; auto.
  apply Qlt_le_weak, Qinv_lt_0_compat, Hn.
Qed.

Lemma quantize_literal_mono (x y : Q) (n_bits : Z) :
  x <= y -> quantize_literal x n_bits <= quantize_literal y n_bits.
Proof.
  intros H. unfold quantize_literal.
  assert (Hn : 0 < 2 ^ (n_bits - 2)) by (apply Qpower_0_lt; reflexivity).
  apply clip_mono, Qdiv_le_mono; auto.
  apply round_mono, Qmult_le_compat_r; auto. now apply Qlt_le_weak.
Qed.

Lemma membrane_grid_mono (x y : Q) : x <= y -> membrane_grid x <= membrane_grid y.
Proof.
  intros H. unfold membrane_grid.
  apply clip_mono, Qdiv_le_mono; [reflexivity|].
  apply round_mono, Qmult_le_compat_r; auto. discriminate.
Qed.

Lemma membrane_grid_bounds (v : Q) :
  - 14.99993896484375 <= membrane_grid v <= 14.99993896484375.
Proof. unfold membrane_grid. apply clip_bounds. lra. Qed.

Lemma membrane_grid_Z (k : Z) :
  (- 245759 <= k <= 245759)%Z -> membrane_grid (inject_Z k / 16384) == inject_Z k / 16384.
Proof.
  intros [Hlo Hhi]. unfold membrane_grid. change (2 ^ 14) with 16384.
  assert (E : inject_Z k / 16384 * 16384 == inject_Z k) by field.
  unfold round. rewrite (round_half_even_comp _ _ E), round_half_even_Z.
  rewrite Zle_Qle in Hlo, Hhi.
  change (inject_Z (- 245759)) with (- 245759 # 1) in Hlo.
  change (inject_Z 245759) with (245759 # 1) in Hhi.
  change (inject_Z k / 16384) with (inject_Z k * (1 # 16384)).
  apply clip_inside; lra.
Qed.

(** Every value of the membrane grid is [k / 2^14] for an integer [k] of
    at most 245759 in absolute value. *)
Lemma membrane_grid_on_grid (v : Q) :
  exists k : Z, (- 245759 <= k <= 245759)%Z /\ membrane_grid v == inject_Z k / 16384.
Proof.
  unfold membrane_grid. change (2 ^ 14) with 16384.
  set (k := round_half_even (v * 16384)). unfold round. fold k.
  destruct (clip_cases (inject_Z k / 16384) (- 14.99993896484375) 14.99993896484375)
    as [[_ E]|[[_ E]|[[Hlo Hhi] E]]]; [lra| | |].
  - exists (-245759)%Z. split; [lia|]. rewrite E. reflexivity.
  - exists 245759%Z. split; [lia|]. rewrite E. reflexivity.
  - exists k. split; [|exact E].
    change (inject_Z k / 16384) with (inject_Z k * (1 # 16384)) in Hlo, Hhi.
    split; rewrite Zle_Qle.
    + change (inject_Z (- 245759)) with (- 245759 # 1). lra.
    + change (inject_Z 245759) with (245759 # 1). lra.
Qed.

End RoundFacts.

(** ** The quantizer: range, grid, accuracy, order *)

Section QuantizerBehaviour.
Local Open Scope Q_scope.

Lemma Quantize_nth (t : tensor Q) (n_bit : Z) (k : nat) (x : Q) :
  nth_error (values t) k = Some x ->
  nth_error (values (Quantize t n_bit)) k = Some (quantize_literal x n_bit).
Proof.
  intros H. rewrite Quantize_elementwise. unfold tmap. cbn [values].
  now rewrite nth_error_map, H.
Qed.

(** X1: at every bit width from 2 to 129, [Quantize] keeps the shape and
    the number of elements, and every element of its result lies between
    the literal bounds -1.99993896484375 and 1.99993896484375. *)
Theorem Quantize_within_bounds (t : tensor Q) (n_bit : Z) :
  (2 <= n_bit <= 129)%Z ->
  shape (Quantize t n_bit) = shape t /\
  List.length (values (Quantize t n_bit)) = List.length (values t) /\
  Forall (fun q => - 1.99993896484375 <= q <= 1.99993896484375)
         (values (Quantize t n_bit)).
Proof.
  intros _.
  rewrite Quantize_elementwise. unfold tmap. cbn [shape values].
  split; [reflexivity|]. split; [apply length_map|].
  apply Forall_forall. intros q Hq. apply in_map_iff in Hq.
  destruct Hq as [x [<- _]]. unfold quantize_literal.
  apply clip_bounds. lra.
Qed.

Lemma Quantize_within_bounds_witness :
  let t := mkTensor [3%nat] [5; 0.3; -7] in
  (2 <= 4 <= 129)%Z /\
  shape (Quantize t 4) = shape t /\
  List.length (values (Quantize t 4)) = List.length (values t) /\
  Forall (fun q => - 1.99993896484375 <= q <= 1.99993896484375)
         (values (Quantize t 4)).
Proof.
  intros t.
  assert (H : (2 <= 4 <= 129)%Z) by lia.
  split; [exact H|].
  apply (Quantize_within_bounds t 4 H).
Defined.

(** X2: every element of [Binarize t] is a signed 16-bit fixed-point
    number with 14 fractional bits: [k / 2^14] for an integer [k] with
    [-32767 <= k <= 32767]. *)
Theorem Binarize_fits_16_bits (t : tensor Q) :
  Forall (fun q => exists k : Z,
              (- 32767 <= k <= 32767)%Z /\ q == inject_Z k / inject_Z (2 ^ 14))
         (values (Binarize t)).
Proof.
  unfold Binarize. rewrite Quantize_elementwise. unfold tmap. cbn [values].
  apply Forall_forall. intros q Hq. apply in_map_iff in Hq.
  destruct Hq as [x [<- _]].
  destruct (quantize_literal_on_grid x) as [[k Hk] [Hlo Hhi]].
  exists k. split; [|exact Hk].
  rewrite Hk in Hlo, Hhi.
  change (inject_Z k / 16384) with (inject_Z k * (1 # 16384)) in Hlo, Hhi.
  split; rewrite Zle_Qle.
  - change (inject_Z (- 32767)) with (- 32767 # 1). lra.
  - change (inject_Z 32767) with (32767 # 1). lra.
Qed.

Lemma quantize_literal_16_error (x : Q) :
  - 1.99993896484375 <= x <= 1.99993896484375 ->
  - (1 # 32768) <= quantize_literal x 16 - x <= 1 # 32768.
Proof.
  intros [Hlo Hhi]. unfold quantize_literal. change (2 ^ (16 - 2)) with 16384.
  set (r := round_half_even (x * 16384)). unfold round. fold r.
  pose proof (round_half_even_error (x * 16384)) as He. fold r in He.
  assert (Hr : (- 32767 <= r <= 32767)%Z).
  { split.
    - rewrite <- (round_half_even_Z (- 32767)). apply round_half_even_mono.
      change (inject_Z (- 32767)) with (- 32767 # 1). lra.
    - rewrite <- (round_half_even_Z 32767). apply round_half_even_mono.
      change (inject_Z 32767) with (32767 # 1). lra. }
  destruct Hr as [Hr1 Hr2]. rewrite Zle_Qle in Hr1, Hr2.
  change (inject_Z (- 32767)) with (- 32767 # 1) in Hr1.
  change (inject_Z 32767) with (32767 # 1) in Hr2.
  change (inject_Z r / 16384) with (inject_Z r * (1 # 16384)).
  rewrite clip_inside by lra. lra.
Qed.

(** X3: 16-bit quantization moves a value inside the literal bounds by at
    most half a grid step, [2^-15]. *)
Theorem Binarize_error_bound (t : tensor Q) (k : nat) (x : Q) :
  nth_error (values t) k = Some x ->
  - 1.99993896484375 <= x <= 1.99993896484375 ->
  exists q : Q,
    nth_error (values (Binarize t)) k = Some q /\
    - (1 # 32768) <= q - x <= 1 # 32768.
Proof.
  intros Hk Hx. exists (quantize_literal x 16).
  split; [apply Quantize_nth, Hk|].
  now apply quantize_literal_16_error.
Qed.

Lemma Binarize_error_bound_witness :
  let t := mkTensor [2%nat] [0.3; -1.5] in
  nth_error (values t) 0 = Some 0.3 /\
  - 1.99993896484375 <= 0.3 <= 1.99993896484375 /\
  exists q : Q,
    nth_error (values (Binarize t)) 0 = Some q /\
    - (1 # 32768) <= q - 0.3 <= 1 # 32768.
Proof.
  intros t. split; [reflexivity|].
  assert (H : - 1.99993896484375 <= 0.3 <= 1.99993896484375)
    by (split; discriminate).
  split; [exact H|].
  apply (Binarize_error_bound t 0 0.3); [reflexivity|exact H].
Defined.

(** X4: [Quantize] keeps the order of values: of two elements of a tensor,
    the smaller one has the smaller (or the same) quantized value, at every
    bit width from 2 to 129. *)
Theorem Quantize_monotone (t : tensor Q) (n_bit : Z) (i j : nat) (x y : Q) :
  (2 <= n_bit <= 129)%Z ->
  nth_error (values t) i = Some x ->
  nth_error (values t) j = Some y ->
  x <= y ->
  exists qx qy : Q,
    nth_error (values (Quantize t n_bit)) i = Some qx /\
    nth_error (values (Quantize t n_bit)) j = Some qy /\
    qx <= qy.
Proof.
  intros _ Hi Hj Hxy.
  exists (quantize_literal x n_bit), (quantize_literal y n_bit).
  split; [apply Quantize_nth, Hi|].
  split; [apply Quantize_nth, Hj|].
  now apply quantize_literal_mono.
Qed.

Lemma Quantize_monotone_witness :
  let t := mkTensor [2%nat] [0.3; 1.7] in
  (2 <= 8 <= 129)%Z /\
  nth_error (values t) 0 = Some 0.3 /\
  nth_error (values t) 1 = Some 1.7 /\
  0.3 <= 1.7 /\
  exists qx qy : Q,
    nth_error (values (Quantize t 8)) 0 = Some qx /\
    nth_error (values (Quantize t 8)) 1 = Some qy /\
    qx <= qy.
Proof.
  intros t.
  assert (W : (2 <= 8 <= 129)%Z) by lia.
  split; [exact W|].
  split; [reflexivity|]. split; [reflexivity|].
  assert (H : 0.3 <= 1.7) by discriminate.
  split; [exact H|].
  apply (Quantize_monotone t 8 0 1 0.3 1.7); [exact W|reflexivity|reflexivity|exact H].
Defined.

End QuantizerBehaviour.

(** ** The LIF update: range, reset, saturation *)

Section LIFBehaviour.
Local Open Scope Q_scope.

Lemma Forall_zip_with3 {A B C D : Type} (P : D -> Prop) (f : A -> B -> C -> D)
    (l1 : list A) (l2 : list B) (l3 : list C) :
  (forall a b c, P (f a b c)) -> Forall P (zip_with3 f l1 l2 l3).
Proof.
  intros H. revert l2 l3.
  induction l1 as [|a l1 IH]; intros [|b l2] [|c l3]; cbn [zip_with3]; auto.
Qed.

Lemma zip_with3_map_first {A B C D : Type} (P : C -> Prop) (f : A -> B -> C -> D)
    (g : A -> D) (l1 : list A) (l2 : list B) (l3 : list C) :
  List.length l2 = List.length l1 -> List.length l3 = List.length l1 ->
  Forall P l3 ->
  (forall a b c, P c -> f a b c = g a) ->
  zip_with3 f l1 l2 l3 = map g l1.
Proof.
  intros H2 H3 HP Hf. revert l2 l3 H2 H3 HP.
  induction l1 as [|a l1 IH]; intros [|b l2] [|c l3] H2 H3 HP;
    cbn in H2, H3; try discriminate; cbn [zip_with3 map]; auto.
  inversion HP; subst. rewrite (Hf a b c) by assumption.
  f_equal. apply IH; auto.
Qed.

Lemma lif_spike_binary (i m s : Q) : lif_spike i m s = 0 \/ lif_spike i m s = 1.
Proof. unfold lif_spike. destruct (Qlt_le_dec 0 (lif_mem i m s - 0.875)); auto. Qed.

(** X5: on tensors of one shape the LIF update never fails; every element
    of the new membrane lies between -14.99993896484375 and
    14.99993896484375 and is [k / 2^14] for an integer [k]; every element
    of the new spike tensor is 0 or 1. *)
Theorem LIF_mem_update_range (inputs mem spike : tensor Q) :
  shape mem = shape inputs -> shape spike = shape inputs ->
  exists mem' spike' : tensor Q,
    LIF_mem_update inputs mem spike = Ok (mem', spike') /\
    Forall (fun m => - 14.99993896484375 <= m <= 14.99993896484375 /\
                     exists k : Z, m == inject_Z k / inject_Z (2 ^ 14))
           (values mem') /\
    Forall (fun s => s = 0 \/ s = 1) (values spike').
Proof.
  intros Hm Hs. rewrite (LIF_mem_update_values inputs mem spike Hm Hs).
  do 2 eexists. split; [reflexivity|]. cbn [values].
  split.
  - apply Forall_zip_with3. intros i m s. unfold lif_mem.
    split; [apply membrane_grid_bounds|].
    destruct (membrane_grid_on_grid
                (membrane_grid (m * 0.5 * (1 - s)) + i)) as [k [_ Hk]].
    exists k. exact Hk.
  - apply Forall_zip_with3. intros i m s. apply lif_spike_binary.
Qed.

Lemma LIF_mem_update_range_witness :
  let inputs := mkTensor [2%nat] [40; -0.3] in
  let mem := mkTensor [2%nat] [1; 20] in
  let spike := mkTensor [2%nat] [0; 1] in
  shape mem = shape inputs /\ shape spike = shape inputs /\
  exists mem' spike' : tensor Q,
    LIF_mem_update inputs mem spike = Ok (mem', spike') /\
    Forall (fun m => - 14.99993896484375 <= m <= 14.99993896484375 /\
                     exists k : Z, m == inject_Z k / inject_Z (2 ^ 14))
           (values mem') /\
    Forall (fun s => s = 0 \/ s = 1) (values spike').
Proof.
  intros inputs mem spike. split; [reflexivity|]. split; [reflexivity|].
  apply (LIF_mem_update_range inputs mem spike); reflexivity.
Defined.

Lemma membrane_grid_0 : membrane_grid 0 == 0.
Proof. vm_compute. reflexivity. Qed.

Lemma lif_mem_after_spike (i m s : Q) : s == 1 -> lif_mem i m s = membrane_grid i.
Proof.
  intros Hs. unfold lif_mem. apply membrane_grid_comp.
  assert (E : membrane_grid (m * 0.5 * (1 - s)) = membrane_grid 0).
  { apply membrane_grid_comp. rewrite Hs. ring. }
  rewrite E, membrane_grid_0. ring.
Qed.

Lemma lif_spike_after_spike (i m s : Q) : s == 1 -> lif_spike i m s = encoded_spike i.
Proof.
  intros Hs. unfold lif_spike, encoded_spike. rewrite (lif_mem_after_spike i m s Hs).
  destruct (Qlt_le_dec 0 (membrane_grid i - 0.875)),
           (Qlt_le_dec 0.875 (membrane_grid i)); auto; lra.
Qed.

(** X6: hard reset.  Where every neuron has just spiked ([spike] is 1
    everywhere), the update forgets the previous membrane altogether: the
    new membrane is the quantized, clipped input and the new spike its
    threshold, whatever [mem] holds. *)
Theorem LIF_mem_update_reset (inputs mem spike : tensor Q) :
  well_shaped inputs -> well_shaped mem -> well_shaped spike ->
  shape mem = shape inputs -> shape spike = shape inputs ->
  Forall (fun s => s == 1) (values spike) ->
  LIF_mem_update inputs mem spike
  = Ok (tmap (fun i => clip (round (i * 2 ^ 14) / 2 ^ 14)
                            (- 14.99993896484375) 14.99993896484375) inputs,
        tmap encoded_spike inputs).
Proof.
  intros Wi Wm Ws Hm Hs H1.
  rewrite (LIF_mem_update_values inputs mem spike Hm Hs).
  unfold well_shaped in *.
  assert (Lm : List.length (values mem) = List.length (values inputs)) by congruence.
  assert (Ls : List.length (values spike) = List.length (values inputs)) by congruence.
  unfold tmap.
  rewrite (zip_with3_map_first (fun s => s == 1) lif_mem membrane_grid
             _ _ _ Lm Ls H1) by (intros; now apply lif_mem_after_spike).
  rewrite (zip_with3_map_first (fun s => s == 1) lif_spike encoded_spike
             _ _ _ Lm Ls H1) by (intros; now apply lif_spike_after_spike).
  reflexivity.
Qed.

Lemma LIF_mem_update_reset_witness :
  let inputs := mkTensor [2%nat] [1; 0.3] in
  let mem := mkTensor [2%nat] [7; -12] in
  let spike := mkTensor [2%nat] [1; 1] in
  well_shaped inputs /\ well_shaped mem /\ well_shaped spike /\
  shape mem = shape inputs /\ shape spike = shape inputs /\
  Forall (fun s => s == 1) (values spike) /\
  LIF_mem_update inputs mem spike
  = Ok (tmap (fun i => clip (round (i * 2 ^ 14) / 2 ^ 14)
                            (- 14.99993896484375) 14.99993896484375) inputs,
        tmap encoded_spike inputs).
Proof.
  intros inputs mem spike.
  assert (H1 : Forall (fun s => s == 1) (values spike))
    by (repeat constructor).
  repeat (split; [reflexivity|]). split; [exact H1|].
  apply (LIF_mem_update_reset inputs mem spike); try reflexivity. exact H1.
Defined.

Lemma lif_mem_saturates_high (i m s : Q) :
  30 <= i -> lif_mem i m s == 14.99993896484375.
Proof.
  intros Hi. unfold lif_mem.
  pose proof (membrane_grid_bounds (m * 0.5 * (1 - s))) as [Hlo _].
  set (mem2 := membrane_grid (m * 0.5 * (1 - s))) in *.
  pose proof (membrane_grid_bounds (mem2 + i)) as [_ Hhi].
  assert (Hge : membrane_grid (inject_Z 245759 / 16384) <= membrane_grid (mem2 + i)).
  { apply membrane_grid_mono.
    change (inject_Z 245759 / 16384) with (245759 # 16384). lra. }
  rewrite membrane_grid_Z in Hge by lia.
  change (inject_Z 245759 / 16384) with (245759 # 16384) in Hge.
  apply Qle_antisym; lra.
Qed.

Lemma lif_mem_saturates_low (i m s : Q) :
  i <= - 30 -> lif_mem i m s == - 14.99993896484375.
Proof.
  intros Hi. unfold lif_mem.
  pose proof (membrane_grid_bounds (m * 0.5 * (1 - s))) as [_ Hhi].
  set (mem2 := membrane_grid (m * 0.5 * (1 - s))) in *.
  pose proof (membrane_grid_bounds (mem2 + i)) as [Hlo _].
  assert (Hle : membrane_grid (mem2 + i) <= membrane_grid (inject_Z (- 245759) / 16384)).
  { apply membrane_grid_mono.
    change (inject_Z (- 245759) / 16384) with (- 245759 # 16384). lra. }
  rewrite membrane_grid_Z in Hle by lia.
  change (inject_Z (- 245759) / 16384) with (- 245759 # 16384) in Hle.
  apply Qle_antisym; lra.
Qed.

(** X7: saturation.  An input of 30 or more drives the membrane exactly to
    the upper bound 14.99993896484375 and makes the neuron spike; an input
    of -30 or less drives it exactly to the lower bound and gives no spike;
    this holds whatever the previous membrane and spike are. *)
Theorem LIF_mem_update_saturates (inputs mem spike : tensor Q) (k : nat) (i m s : Q) :
  shape mem = shape inputs -> shape spike = shape inputs ->
  nth_error (values inputs) k = Some i ->
  nth_error (values mem) k = Some m ->
  nth_error (values spike) k = Some s ->
  exists (mem' spike' : tensor Q) (m' s' : Q),
    LIF_mem_update inputs mem spike = Ok (mem', spike') /\
    nth_error (values mem') k = Some m' /\
    nth_error (values spike') k = Some s' /\
    (30 <= i -> m' == 14.99993896484375 /\ s' = 1) /\
    (i <= - 30 -> m' == - 14.99993896484375 /\ s' = 0).
Proof.
  intros Hm Hs Hi Hk1 Hk2.
  rewrite (LIF_mem_update_values inputs mem spike Hm Hs).
  exists (mkTensor (shape inputs)
            (zip_with3 lif_mem (values inputs) (values mem) (values spike))),
         (mkTensor (shape inputs)
            (zip_with3 lif_spike (values inputs) (values mem) (values spike))),
         (lif_mem i m s), (lif_spike i m s).
  split; [reflexivity|]. cbn [values].
  split; [exact (zip_with3_nth_error lif_mem _ _ _ k i m s Hi Hk1 Hk2)|].
  split; [exact (zip_with3_nth_error lif_spike _ _ _ k i m s Hi Hk1 Hk2)|].
  split; intros Hb.
  - pose proof (lif_mem_saturates_high i m s Hb) as E.
    split; [exact E|]. unfold lif_spike.
    destruct (Qlt_le_dec 0 (lif_mem i m s - 0.875)); auto. lra.
  - pose proof (lif_mem_saturates_low i m s Hb) as E.
    split; [exact E|]. unfold lif_spike.
    destruct (Qlt_le_dec 0 (lif_mem i m s - 0.875)); auto. lra.
Qed.

Lemma LIF_mem_update_saturates_witness :
  let inputs := mkTensor [2%nat] [40; -35] in
  let mem := mkTensor [2%nat] [-9; 14] in
  let spike := mkTensor [2%nat] [0; 0] in
  shape mem = shape inputs /\ shape spike = shape inputs /\
  nth_error (values inputs) 0 = Some 40 /\
  nth_error (values mem) 0 = Some (- 9) /\
  nth_error (values spike) 0 = Some 0 /\
  exists (mem' spike' : tensor Q) (m' s' : Q),
    LIF_mem_update inputs mem spike = Ok (mem', spike') /\
    nth_error (values mem') 0 = Some m' /\
    nth_error (values spike') 0 = Some s' /\
    (30 <= 40 -> m' == 14.99993896484375 /\ s' = 1) /\
    (40 <= - 30 -> m' == - 14.99993896484375 /\ s' = 0).
Proof.
  intros inputs mem spike.
  repeat (split; [reflexivity|]).
  apply (LIF_mem_update_saturates inputs mem spike 0 40 (- 9) 0); reflexivity.
Defined.

End LIFBehaviour.

(** ** The backward pass: symmetry, support, size *)

Section BackwardBehaviour.
Local Open Scope R_scope.

Lemma normal_density_opp (x mu sigma : R) :
  normal_density (- x) mu sigma = normal_density x (- mu) sigma.
Proof.
  unfold normal_density.
  replace ((- x - mu) * (- x - mu)) with ((x - - mu) * (x - - mu)) by ring.
  reflexivity.
Qed.

Lemma sigmoid_derivative_even (x : R) :
  exp (- - x) / ((1 + exp (- - x)) * (1 + exp (- - x)))
  = exp (- x) / ((1 + exp (- x)) * (1 + exp (- x))).
Proof.
  rewrite Ropp_involutive, exp_Ropp.
  pose proof (exp_pos x) as He.
  field. repeat split; lra.
Qed.

(** Every kernel is an even function of the pre-activation. *)
Lemma kernel_even (mode : string) (x : R) : kernel mode (- x) = kernel mode x.
Proof.
  unfold kernel.
  destruct (String.eqb mode "G").
  { rewrite normal_density_opp. now rewrite Ropp_0. }
  destruct (String.eqb mode "MG").
  { rewrite !normal_density_opp, Ropp_0.
    replace (- (0.5)) with (-0.5) by lra.
    replace (- (-0.5)) with 0.5 by lra. ring. }
  destruct (String.eqb mode "linear"); [now rewrite Rabs_Ropp|].
  destruct (String.eqb mode "slayer"); [now rewrite Rabs_Ropp|].
  destruct (String.eqb mode "sigmoid"); [apply sigmoid_derivative_even|].
  now rewrite Rabs_Ropp.
Qed.

(** X8: in the modes ['G'], ['linear'], ['slayer'] and the fallback, that
    is in every mode but ['MG'] and ['sigmoid'], the saved pre-activation
    enters the kernel only through its square or its absolute value, and
    the gradient returned by the backward pass does not depend on its sign:
    negating every element of the saved tensor gives the same result. *)
Theorem backward_even_in_input (mode : string) (x g : tensor R) :
  mode <> "MG"%string -> mode <> "sigmoid"%string ->
  shape g = shape x ->
  AcFun_adp.backward mode (mkCtx [tmap Ropp x]) g
  = AcFun_adp.backward mode (mkCtx [x]) g.
Proof.
  intros _ _ Hg.
  rewrite (backward_values mode (tmap Ropp x) g) by exact Hg.
  rewrite (backward_values mode x g Hg).
  unfold tmap. cbn [shape values]. do 2 f_equal.
  rewrite zip_with_map_r. apply zip_with_ext.
  intros a b _ _. now rewrite kernel_even.
Qed.

Lemma backward_even_in_input_witness :
  let x := mkTensor [2%nat] [1; -2] in
  let g := mkTensor [2%nat] [1; 1] in
  "G"%string <> "MG"%string /\ "G"%string <> "sigmoid"%string /\
  shape g = shape x /\
  AcFun_adp.backward "G" (mkCtx [tmap Ropp x]) g
  = AcFun_adp.backward "G" (mkCtx [x]) g.
Proof.
  intros x g.
  assert (H1 : "G"%string <> "MG"%string) by discriminate.
  assert (H2 : "G"%string <> "sigmoid"%string) by discriminate.
  split; [exact H1|]. split; [exact H2|]. split; [reflexivity|].
  apply (backward_even_in_input "G" x g H1 H2). reflexivity.
Defined.

Lemma kernel_linear (v : R) : kernel "linear" v = Rmax 0 (1 - Rabs v).
Proof. reflexivity. Qed.

(** X9: in mode ['linear'] the surrogate gradient has bounded support: an
    element whose pre-activation has absolute value 1 or more receives
    gradient 0, and one inside (-1, 1) receives [g * (1 - |x|) * 0.5]. *)
Theorem backward_linear_support (x g : tensor R) (k : nat) (gi xi : R) :
  shape g = shape x ->
  nth_error (values g) k = Some gi ->
  nth_error (values x) k = Some xi ->
  exists (grad : tensor R) (d : R),
    AcFun_adp.backward "linear" (mkCtx [x]) g = Ok grad /\
    nth_error (values grad) k = Some d /\
    (1 <= Rabs xi -> d = 0) /\
    (Rabs xi <= 1 -> d = gi * (1 - Rabs xi) * 0.5).
Proof.
  intros Hg Hgi Hxi. rewrite (backward_values "linear" x g Hg).
  eexists. exists (gi * kernel "linear" xi * 0.5).
  split; [reflexivity|]. cbn [values].
  split.
  { exact (zip_with_nth_error (fun a b => a * kernel "linear" b * 0.5)
             _ _ k gi xi Hgi Hxi). }
  rewrite kernel_linear. split; intros H.
  - rewrite Rmax_left by lra. ring.
  - rewrite Rmax_right by lra. reflexivity.
Qed.

Lemma backward_linear_support_witness :
  let x := mkTensor [2%nat] [3; 0] in
  let g := mkTensor [2%nat] [1; 1] in
  shape g = shape x /\
  nth_error (values g) 0 = Some 1 /\
  nth_error (values x) 0 = Some 3 /\
  exists (grad : tensor R) (d : R),
    AcFun_adp.backward "linear" (mkCtx [x]) g = Ok grad /\
    nth_error (values grad) 0 = Some d /\
    (1 <= Rabs 3 -> d = 0) /\
    (Rabs 3 <= 1 -> d = 1 * (1 - Rabs 3) * 0.5).
Proof.
  intros x g. repeat (split; [reflexivity|]).
  apply (backward_linear_support x g 0 1 3); reflexivity.
Defined.

Lemma kernel_G_bounds (v : R) :
  0 < kernel "G" v <= 2 / sqrt (2 * PI).
Proof.
  change (kernel "G" v) with (normal_density v 0 0.5). unfold normal_density.
  assert (Hs : 0 < sqrt (2 * PI)).
  { apply sqrt_lt_R0. apply Rmult_lt_0_compat; [lra | apply PI_RGT_0]. }
  assert (Hi : 0 < / sqrt (2 * PI)) by now apply Rinv_0_lt_compat.
  set (a := - ((v - 0) * (v - 0)) / (2 * (0.5 * 0.5))).
  assert (Ha : a <= 0).
  { unfold a. pose proof (Rle_0_sqr (v - 0)) as Hq. unfold Rsqr in Hq. lra. }
  pose proof (exp_pos a) as He.
  assert (He1 : exp a <= 1).
  { rewrite <- exp_0. destruct Ha as [Ha|Ha].
    - left. now apply exp_increasing.
    - rewrite Ha. right. reflexivity. }
  rewrite Rinv_mult. replace (/ 0.5) with 2 by lra.
  unfold Rdiv. set (r := / sqrt (2 * PI)) in *.
  split; nra.
Qed.

(** X10: in mode ['G'] the gradient of an element is the upstream gradient
    scaled by a factor between 0 and 1: it never has the opposite sign of
    the upstream gradient and is never larger in size. *)
Theorem backward_G_bounded (x g : tensor R) (k : nat) (gi xi : R) :
  shape g = shape x ->
  nth_error (values g) k = Some gi ->
  nth_error (values x) k = Some xi ->
  exists (grad : tensor R) (c : R),
    AcFun_adp.backward "G" (mkCtx [x]) g = Ok grad /\
    nth_error (values grad) k = Some (gi * c) /\
    0 <= c <= 1 /\
    0 <= gi * (gi * c) /\
    Rabs (gi * c) <= Rabs gi.
Proof.
  intros Hg Hgi Hxi. rewrite (backward_values "G" x g Hg).
  pose proof (kernel_G_bounds xi) as [K1 K2].
  assert (Hs : 1 <= sqrt (2 * PI)).
  { rewrite <- sqrt_1 at 1. apply sqrt_le_1; [lra| |]; pose proof PI2_1; lra. }
  assert (Hi : / sqrt (2 * PI) <= 1).
  { rewrite <- Rinv_1. apply Rinv_le_contravar; lra. }
  assert (Hc : 0 <= kernel "G" xi * 0.5 <= 1).
  { unfold Rdiv in K2. lra. }
  eexists. exists (kernel "G" xi * 0.5).
  split; [reflexivity|]. cbn [values].
  split.
  { rewrite (zip_with_nth_error (fun a b => a * kernel "G" b * 0.5)
               _ _ k gi xi Hgi Hxi).
    f_equal. ring. }
  split; [exact Hc|].
  split.
  { replace (gi * (gi * (kernel "G" xi * 0.5)))
      with ((gi * gi) * (kernel "G" xi * 0.5)) by ring.
    apply Rmult_le_pos; [apply Rle_0_sqr | apply Hc]. }
  rewrite Rabs_mult, (Rabs_pos_eq (kernel "G" xi * 0.5)) by apply Hc.
  rewrite <- (Rmult_1_r (Rabs gi)) at 2.
  apply Rmult_le_compat_l; [apply Rabs_pos | apply Hc].
Qed.

Lemma backward_G_bounded_witness :
  let x := mkTensor [1%nat] [0.25] in
  let g := mkTensor [1%nat] [-3] in
  shape g = shape x /\
  nth_error (values g) 0 = Some (-3) /\
  nth_error (values x) 0 = Some 0.25 /\
  exists (grad : tensor R) (c : R),
    AcFun_adp.backward "G" (mkCtx [x]) g = Ok grad /\
    nth_error (values grad) 0 = Some (-3 * c) /\
    0 <= c <= 1 /\
    0 <= -3 * (-3 * c) /\
    Rabs (-3 * c) <= Rabs (-3).
Proof.
  intros x g. repeat (split; [reflexivity|]).
  apply (backward_G_bounded x g 0 (-3) 0.25); reflexivity.
Defined.

End BackwardBehaviour.

(** ** The quantized linear layer: updates and failures *)

Section BinarizeLinearBehaviour.
Local Open Scope Q_scope.

Lemma Quantize_shape (t : tensor Q) (n_bit : Z) : shape (Quantize t n_bit) = shape t.
Proof. rewrite Quantize_elementwise. reflexivity. Qed.

(** X11: once a forward call has run, whatever is written into
    [weight.data] before the next call (an optimizer step, say) has no
    effect on that call: it returns what the first call returned and leaves
    the layer as the first call left it, because the live weight is rebuilt
    from the shadow. *)
Theorem forward_discards_weight_update (self : BinarizeLinear) (input d : tensor Q) :
  let first := BinarizeLinear_forward self input in
  let second := BinarizeLinear_forward (with_weight_data (fst first) d) input in
  snd second = snd first /\ fst second = fst first.
Proof.
  cbv zeta. unfold BinarizeLinear_forward, with_weight_data. cbn [data].
  set (w := Binarize (shadow (weight self))).
  destruct (linear input w) as [out|e] eqn:El.
  - destruct (bias self) as [b|] eqn:Eb;
      cbn [fst snd weight bias org data shadow]; fold w; rewrite El;
      cbn [fst snd weight bias org data shadow]; split; reflexivity.
  - cbn [fst snd weight bias org data shadow]; fold w; rewrite El;
      cbn [fst snd weight bias org data shadow]; split; reflexivity.
Qed.

(** X12: a forward call whose input does not have [in_features] as last
    dimension raises [RuntimeError], but only after it has created the
    weight shadow and replaced the live weight by its quantization; the
    bias is left as it was. *)
Theorem forward_shape_error_after_mutation (self : BinarizeLinear) (input : tensor Q)
    (o i i' : nat) (lead : list nat) :
  shape (shadow (weight self)) = [o; i] ->
  shape input = lead ++ [i'] ->
  i' <> i ->
  snd (BinarizeLinear_forward self input) = Raise RuntimeError /\
  weight (fst (BinarizeLinear_forward self input))
  = mkParameter (Quantize (shadow (weight self)) 16) (Some (shadow (weight self))) /\
  bias (fst (BinarizeLinear_forward self input)) = bias self.
Proof.
  intros Hw Hi Hne. unfold BinarizeLinear_forward. cbn [data].
  assert (El : linear input (Binarize (shadow (weight self))) = Raise RuntimeError).
  { unfold linear, Binarize. rewrite Quantize_shape, Hw, Hi.
    rewrite rev_app_distr. cbn [rev app].
    apply Nat.eqb_neq in Hne. now rewrite Hne. }
  rewrite El. cbn [fst snd weight bias]. repeat split; reflexivity.
Qed.

Lemma forward_shape_error_after_mutation_witness :
  let self := mkBinarizeLinear
                (mkParameter (mkTensor [1; 2]%nat [0.3; 5]) None) None in
  let input := mkTensor [1; 3]%nat [1; 1; 1] in
  shape (shadow (weight self)) = [1; 2]%nat /\
  shape input = [1%nat] ++ [3%nat] /\
  3%nat <> 2%nat /\
  snd (BinarizeLinear_forward self input) = Raise RuntimeError /\
  weight (fst (BinarizeLinear_forward self input))
  = mkParameter (Quantize (shadow (weight self)) 16) (Some (shadow (weight self))) /\
  bias (fst (BinarizeLinear_forward self input)) = bias self.
Proof.
  intros self input.
  split; [reflexivity|]. split; [reflexivity|].
  assert (H : 3%nat <> 2%nat) by discriminate.
  split; [exact H|].
  apply (forward_shape_error_after_mutation self input 1 2 3 [1%nat]);
    [reflexivity|reflexivity|exact H].
Defined.

End BinarizeLinearBehaviour.

(** ** The input encoding: ranks and the effective threshold *)

Section EncodingBehaviour.
Local Open Scope Q_scope.

(** X13: the encoding needs an input of at least three dimensions: on a
    tensor of fewer, [OLSGRU.forward] raises [IndexError] (from
    [x.size(...)]), with or without a [hidden_spike] argument, and so does
    the encoding of every other cell. *)
Theorem encoding_needs_three_dimensions (x : tensor Q) (hidden_size : nat)
    (hidden_spike : option (tensor Q)) (c : cell) :
  (List.length (shape x) < 3)%nat ->
  OLSGRU_forward hidden_size x hidden_spike = Raise IndexError /\
  Encoding_spike c x = Raise IndexError.
Proof.
  intros H. unfold OLSGRU_forward, Encoding_spike, encode_input, size.
  destruct (shape x) as [|d0 [|d1 [|d2 l]]]; cbn [List.length] in H; try lia;
    cbn [nth_error]; (split; [destruct hidden_spike | destruct c]); reflexivity.
Qed.

Lemma encoding_needs_three_dimensions_witness :
  let x := mkTensor [2; 2]%nat [1; 0; 1; 1] in
  (List.length (shape x) < 3)%nat /\
  OLSGRU_forward 64 x None = Raise IndexError /\
  Encoding_spike SGRU x = Raise IndexError.
Proof.
  intros x. split; [cbn; lia|].
  apply (encoding_needs_three_dimensions x 64 None SGRU). cbn; lia.
Defined.

Lemma membrane_grid_above_threshold (v : Q) :
  0.875030517578125 < v -> 0.875 < membrane_grid v.
Proof.
  intros Hv. unfold membrane_grid. change (2 ^ 14) with 16384.
  set (y := v * 16384).
  assert (Hy : inject_Z 14336 + (1 # 2) < y).
  { unfold y. change (inject_Z 14336) with (14336 # 1). lra. }
  assert (Hf : (14336 <= Qfloor y)%Z).
  { rewrite <- (Qfloor_Z 14336). apply Qfloor_resp_le. lra. }
  assert (Hr : (14337 <= round_half_even y)%Z).
  { pose proof (round_half_even_near_floor y) as Hn.
    destruct (Z.eq_dec (Qfloor y) 14336) as [E|N]; [|lia].
    destruct (round_half_even_cases y) as [[C R]|[[C R]|[C R]]];
      rewrite E in *; try lia; exfalso; lra. }
  unfold round. rewrite Zle_Qle in Hr.
  change (inject_Z 14337) with (14337 # 1) in Hr.
  change (inject_Z (round_half_even y) / 16384)
    with (inject_Z (round_half_even y) * (1 # 16384)).
  destruct (clip_cases (inject_Z (round_half_even y) * (1 # 16384))
              (- 14.99993896484375) 14.99993896484375)
    as [[C E]|[[C E]|[C E]]]; [lra| | |]; rewrite E; lra.
Qed.

Lemma membrane_grid_below_threshold (v : Q) :
  v <= 0.875030517578125 -> membrane_grid v <= 0.875.
Proof.
  intros Hv.
  apply Qle_trans with (membrane_grid 0.875030517578125).
  - now apply membrane_grid_mono.
  - vm_compute. discriminate.
Qed.

Lemma encoded_spike_threshold (v : Q) :
  (0.875030517578125 < v -> encoded_spike v = 1) /\
  (v <= 0.875030517578125 -> encoded_spike v = 0).
Proof.
  unfold encoded_spike. split; intros H.
  - pose proof (membrane_grid_above_threshold v H).
    destruct (Qlt_le_dec 0.875 (membrane_grid v)); auto. lra.
  - pose proof (membrane_grid_below_threshold v H).
    destruct (Qlt_le_dec 0.875 (membrane_grid v)); auto. lra.
Qed.

(** X14: the effective firing threshold of the encoding.  Because the
    input is rounded to the 2^-14 grid (ties to even) before it is compared
    with 0.875, an input element produces the spike 1 exactly when it is
    greater than 0.875 + 2^-15 = 0.875030517578125, and the spike 0
    otherwise; [OLSGRU.forward] returns these spikes. *)
Theorem encoding_effective_threshold (hidden_size : nat) (x : tensor Q)
    (hidden_spike : option (tensor Q)) (d0 d1 d2 k : nat) (v : Q) :
  shape x = [d0; d1; d2] -> well_shaped x ->
  nth_error (values x) k = Some v ->
  exists (out : tensor Q) (s : Q),
    OLSGRU_forward hidden_size x hidden_spike = Ok out /\
    nth_error (values out) k = Some s /\
    (0.875030517578125 < v -> s = 1) /\
    (v <= 0.875030517578125 -> s = 0).
Proof.
  intros Hs Hw Hk.
  exists (mkTensor [d0; d1; d2] (map encoded_spike (values x))), (encoded_spike v).
  split.
  { unfold OLSGRU_forward, size. rewrite Hs.
    destruct hidden_spike; cbn [nth_error bind];
      rewrite LIF_mem_update_values by (cbn [zeros shape]; congruence);
      cbn [bind snd]; unfold zeros; cbn [values]; rewrite Hs;
      unfold well_shaped in Hw; rewrite Hs in Hw; rewrite <- Hw;
      rewrite !zip_with3_repeat, (map_ext _ _ lif_spike_from_rest);
      reflexivity. }
  cbn [values]. split; [now rewrite nth_error_map, Hk|].
  apply encoded_spike_threshold.
Qed.

Lemma encoding_effective_threshold_witness :
  let x := mkTensor [1; 2; 2]%nat [1; 0.875030517578125; 0.875; 0.9] in
  shape x = [1; 2; 2]%nat /\ well_shaped x /\
  nth_error (values x) 1 = Some 0.875030517578125 /\
  exists (out : tensor Q) (s : Q),
    OLSGRU_forward 64 x None = Ok out /\
    nth_error (values out) 1 = Some s /\
    (0.875030517578125 < 0.875030517578125 -> s = 1) /\
    (0.875030517578125 <= 0.875030517578125 -> s = 0).
Proof.
  intros x. repeat (split; [reflexivity|]).
  apply (encoding_effective_threshold 64 x None 1 2 2 1 0.875030517578125);
    reflexivity.
Defined.

End EncodingBehaviour.

(** ** The spiking cells *)

Section CellBehaviour.
Local Open Scope Q_scope.

Lemma firstn_skipn_repeat {A : Type} (a : A) (n k m : nat) :
  (k + m <= n)%nat -> firstn m (skipn k (repeat a n)) = repeat a m.
Proof.
  revert n m. induction k as [|k IH]; intros n m H.
  - cbn [skipn]. revert n H. induction m as [|m IHm]; intros n H; [reflexivity|].
    destruct n as [|n]; [lia|]. cbn [repeat firstn]. f_equal. apply IHm. lia.
  - destruct n as [|n]; [lia|]. cbn [repeat skipn]. apply IH. lia.
Qed.

Lemma Forall_firstn_skipn {A : Type} (P : A -> Prop) (n k : nat) (l : list A) :
  Forall P l -> Forall P (firstn n (skipn k l)).
Proof.
  intros H.
  assert (Hs : Forall P (skipn k l)).
  { revert l H. induction k as [|k IH]; intros l H; [exact H|].
    destruct l as [|a l]; [constructor|]. inversion H; subst. now apply IH. }
  revert Hs. generalize (skipn k l). clear. intros l H. revert n.
  induction H as [|a l Ha _ IH]; intros [|n]; cbn [firstn]; auto.
Qed.

Lemma flat_map_repeat {A B : Type} (f : A -> list B) (b : B) (m : nat) (l : list A) :
  (forall a, In a l -> f a = repeat b m) ->
  flat_map f l = repeat b (List.length l * m).
Proof.
  induction l as [|a l IH]; intros H; cbn [flat_map List.length]; [reflexivity|].
  rewrite (H a) by (left; reflexivity).
  rewrite IH by (intros; apply H; now right).
  cbn [Nat.mul]. now rewrite repeat_app.
Qed.

Lemma numel_2 (a b : nat) : numel [a; b] = (a * b)%nat.
Proof. unfold numel. cbn [fold_right]. lia. Qed.

Lemma numel_3 (a b c : nat) : numel [a; b; c] = (a * b * c)%nat.
Proof. unfold numel. cbn [fold_right]. lia. Qed.

Lemma row_zeros (n cols k : nat) :
  (k * cols + cols <= n)%nat -> row cols k (repeat 0 n) = repeat 0 cols.
Proof. intros H. unfold row. now apply firstn_skipn_repeat. Qed.

(** A time slice of the zero tensor is the zero matrix. *)
Lemma select_middle_zeros (d0 d1 d2 t : nat) :
  (t < d1)%nat -> select_middle (zeros [d0; d1; d2]) t = Ok (zeros [d0; d2]).
Proof.
  intros Ht. unfold select_middle, zeros. cbn [shape values].
  apply Nat.ltb_lt in Ht as Hb. rewrite Hb. do 2 f_equal.
  rewrite numel_2, numel_3.
  rewrite (flat_map_repeat _ 0 d2), length_seq; [reflexivity|].
  intros b Hin. apply in_seq in Hin. apply firstn_skipn_repeat.
  assert (H1 : (b * d1 + t + 1 <= d0 * d1)%nat).
  { apply Nat.le_trans with ((b + 1) * d1)%nat; [lia|].
    apply Nat.mul_le_mono_r. lia. }
  apply (Nat.mul_le_mono_r _ _ d2) in H1. lia.
Qed.

(** Hidden and input zeros concatenate to zeros. *)
Lemma cat_dim1_zeros (r ca cb : nat) :
  cat_dim1 (zeros [r; ca]) (zeros [r; cb]) = Ok (zeros [r; (ca + cb)%nat]).
Proof.
  assert (E : flat_map (fun k => row ca k (values (zeros [r; ca]))
                                  ++ row cb k (values (zeros [r; cb]))) (seq 0 r)
              = repeat 0 (numel [r; (ca + cb)%nat])).
  { unfold zeros. cbn [values]. rewrite !numel_2.
    rewrite (flat_map_repeat _ 0 (ca + cb)), length_seq; [reflexivity|].
    intros k Hin. apply in_seq in Hin.
    assert (H1 : ((k + 1) * ca <= r * ca)%nat) by (apply Nat.mul_le_mono_r; lia).
    assert (H2 : ((k + 1) * cb <= r * cb)%nat) by (apply Nat.mul_le_mono_r; lia).
    rewrite !row_zeros by lia. now rewrite repeat_app. }
  unfold cat_dim1. cbn [zeros shape]. rewrite Nat.eqb_refl, E.
  destruct r; reflexivity.
Qed.

Lemma fold_left_Qplus_zero (l : list Q) (acc : Q) :
  acc == 0 -> Forall (fun v => v == 0) l -> fold_left Qplus l acc == 0.
Proof.
  intros Ha Hl. revert acc Ha.
  induction Hl as [|v l Hv _ IH]; intros acc Ha; cbn [fold_left]; [exact Ha|].
  apply IH. rewrite Ha, Hv. reflexivity.
Qed.

Lemma dot_zero_l (a b : list Q) : Forall (fun v => v == 0) a -> dot a b == 0.
Proof.
  intros Ha. unfold dot. apply fold_left_Qplus_zero; [reflexivity|].
  revert b. induction Ha as [|v a Hv _ IH]; intros [|w b]; cbn [zip_with];
    constructor; auto.
  rewrite Hv. ring.
Qed.

Lemma Forall_zero_repeat (n : nat) : Forall (fun v => v == 0) (repeat 0 n).
Proof. apply Forall_forall. intros v Hv. apply repeat_spec in Hv. now subst. Qed.

(** The product of the zero matrix with any weight is zero. *)
Lemma linear_zeros (w : tensor Q) (B o i : nat) :
  shape w = [o; i] ->
  exists out : tensor Q,
    linear (zeros [B; i]) w = Ok out /\
    shape out = [B; o] /\
    List.length (values out) = (B * o)%nat /\
    Forall (fun v => v == 0) (values out).
Proof.
  intros Hw. unfold linear. rewrite Hw. cbn [zeros shape values rev app].
  rewrite Nat.eqb_refl. eexists. split; [reflexivity|]. cbn [shape values rev app].
  split; [reflexivity|]. split.
  - rewrite (flat_map_constant_length (c := o)).
    + rewrite length_seq. unfold numel. cbn [fold_right]. lia.
    + intros b _. now rewrite length_map, length_seq.
  - apply Forall_forall. intros v Hv. apply in_flat_map in Hv.
    destruct Hv as [b [_ Hv]]. apply in_map_iff in Hv. destruct Hv as [k [<- _]].
    apply dot_zero_l. unfold row.
    apply Forall_firstn_skipn, Forall_zero_repeat.
Qed.


Lemma nn_Linear_zero_preserving (o i : nat) :
  zero_preserving
    (fun l : nn_Linear => lin_bias l = None /\ shape (lin_weight l) = [o; i]) i o.
Proof.
  intros l B [Hb Hw].
  destruct (linear_zeros (lin_weight l) B o i Hw) as [out [E [Hs [Hl Hz]]]].
  exists l, out. unfold call, nn_Linear_Layer, nn_Linear_forward.
  rewrite E, Hb. cbn [bind]. repeat split; auto.
Qed.

Lemma BinarizeLinear_zero_preserving (w : tensor Q) (o i : nat) :
  shape w = [o; i] ->
  zero_preserving
    (fun l : BinarizeLinear => bias l = None /\ shadow (weight l) = w) i o.
Proof.
  intros Hw l B [Hb Hsh].
  assert (Hq : shape (Binarize w) = [o; i])
    by (unfold Binarize; now rewrite Quantize_shape).
  destruct (linear_zeros _ B o i Hq) as [out [E [Hs [Hl Hz]]]].
  exists (mkBinarizeLinear (mkParameter (Binarize w) (Some w)) None), out.
  unfold call, BinarizeLinear_Layer, BinarizeLinear_forward. cbn [data].
  rewrite Hsh, E, Hb. repeat split; auto.
Qed.

Lemma zip_with3_constant {A B C D : Type} (P : A -> Prop) (Q : B -> Prop)
    (R : C -> Prop) (f : A -> B -> C -> D) (d : D)
    (l1 : list A) (l2 : list B) (l3 : list C) :
  List.length l2 = List.length l1 -> List.length l3 = List.length l1 ->
  Forall P l1 -> Forall Q l2 -> Forall R l3 ->
  (forall a b c, P a -> Q b -> R c -> f a b c = d) ->
  zip_with3 f l1 l2 l3 = repeat d (List.length l1).
Proof.
  intros H2 H3 HP HQ HR Hf. revert l2 l3 H2 H3 HQ HR.
  induction HP as [|a l1 Ha _ IH]; intros [|b l2] [|c l3] H2 H3 HQ HR;
    cbn in H2, H3; try discriminate; [reflexivity|].
  inversion HQ; inversion HR; subst.
  cbn [zip_with3 List.length repeat]. rewrite (Hf a b c) by assumption.
  f_equal. apply IH; auto.
Qed.

Lemma Forall_zip_with3_from {A B C D : Type} (P : A -> Prop) (Q : B -> Prop)
    (R : C -> Prop) (S : D -> Prop) (f : A -> B -> C -> D)
    (l1 : list A) (l2 : list B) (l3 : list C) :
  Forall P l1 -> Forall Q l2 -> Forall R l3 ->
  (forall a b c, P a -> Q b -> R c -> S (f a b c)) ->
  Forall S (zip_with3 f l1 l2 l3).
Proof.
  intros HP HQ HR Hf. revert l2 l3 HQ HR.
  induction HP as [|a l1 Ha _ IH]; intros [|b l2] [|c l3] HQ HR;
    cbn [zip_with3]; auto.
  inversion HQ; inversion HR; subst. constructor; auto.
Qed.

Lemma lif_mem_silent (i m s : Q) : i == 0 -> m == 0 -> s == 0 -> lif_mem i m s == 0.
Proof.
  intros Hi Hm Hs. unfold lif_mem.
  assert (E1 : membrane_grid (m * 0.5 * (1 - s)) = membrane_grid 0).
  { apply membrane_grid_comp. rewrite Hm. ring. }
  rewrite E1.
  assert (E2 : membrane_grid (membrane_grid 0 + i) = membrane_grid 0).
  { apply membrane_grid_comp. rewrite membrane_grid_0, Hi. ring. }
  rewrite E2. apply membrane_grid_0.
Qed.

Lemma lif_spike_silent (i m s : Q) : i == 0 -> m == 0 -> s == 0 -> lif_spike i m s = 0.
Proof.
  intros Hi Hm Hs. unfold lif_spike.
  pose proof (lif_mem_silent i m s Hi Hm Hs) as E.
  destruct (Qlt_le_dec 0 (lif_mem i m s - 0.875)); auto. lra.
Qed.

(** A LIF update with zero input from a zero membrane stays silent. *)
Lemma LIF_mem_update_silent (inputs mem : tensor Q) (B H : nat) :
  shape inputs = [B; H] -> List.length (values inputs) = (B * H)%nat ->
  Forall (fun v => v == 0) (values inputs) ->
  shape mem = [B; H] -> List.length (values mem) = (B * H)%nat ->
  Forall (fun v => v == 0) (values mem) ->
  exists mem' : tensor Q,
    LIF_mem_update inputs mem (zeros [B; H]) = Ok (mem', zeros [B; H]) /\
    shape mem' = [B; H] /\ List.length (values mem') = (B * H)%nat /\
    Forall (fun v => v == 0) (values mem').
Proof.
  intros Si Li Zi Sm Lm Zm.
  rewrite LIF_mem_update_values by (cbn [zeros shape]; congruence).
  assert (Lz : List.length (values (zeros [B; H])) = (B * H)%nat).
  { unfold zeros. cbn [values]. now rewrite repeat_length, numel_2. }
  assert (L2 : List.length (values mem) = List.length (values inputs)) by congruence.
  assert (L3 : List.length (values (zeros [B; H])) = List.length (values inputs))
    by congruence.
  assert (Zz : Forall (fun v => v == 0) (values (zeros [B; H])))
    by apply Forall_zero_repeat.
  exists (mkTensor (shape inputs)
            (zip_with3 lif_mem (values inputs) (values mem) (values (zeros [B; H])))).
  split.
  - rewrite (zip_with3_constant (fun v => v == 0) (fun v => v == 0) (fun v => v == 0)
               lif_spike 0 _ _ _ L2 L3 Zi Zm Zz)
      by (intros; now apply lif_spike_silent).
    unfold zeros. now rewrite Si, Li, numel_2.
  - cbn [shape values]. split; [exact Si|]. split.
    + rewrite zip_with3_length; congruence.
    + apply (Forall_zip_with3_from (fun v => v == 0) (fun v => v == 0)
               (fun v => v == 0)); auto.
      intros. now apply lif_mem_silent.
Qed.


Lemma zip_with3_repeat_all {A B C D : Type} (f : A -> B -> C -> D)
    (a : A) (b : B) (c : C) (n : nat) :
  zip_with3 f (repeat a n) (repeat b n) (repeat c n) = repeat (f a b c) n.
Proof. induction n as [|n IH]; cbn [repeat zip_with3]; [reflexivity|]. now rewrite IH. Qed.

Section SilentLoop.
Context {L : Type} {layer : Layer L}.
Variables (I_rz I_h : L -> Prop) (n_in n_hid n_out batch steps : nat).
Hypothesis Hrz : zero_preserving I_rz (n_in + n_hid) n_hid.
Hypothesis Hh : zero_preserving I_h n_hid n_out.

Lemma loop_body_silent (t : nat) (s : loop_state L) :
  (t < steps)%nat -> silent_state I_rz I_h batch n_hid s ->
  exists s' : loop_state L,
    loop_body (zeros [batch; steps; n_in]) t s = (s', None) /\
    silent_state I_rz I_h batch n_hid s' /\ zero_output batch n_out (st_o_input s').
Proof.
  intros Ht [Irz [Ih [Hhid [Sm [Lm [Zm Hsp]]]]]].
  unfold loop_body.
  rewrite (select_middle_zeros batch steps n_in t Ht), Hhid, cat_dim1_zeros.
  destruct (Hrz (st_RZGate s) batch Irz) as [rz [gx [Ec [Irz' [Sg [Lg Zg]]]]]].
  rewrite Ec, Hsp.
  destruct (LIF_mem_update_silent gx (st_RZgate_mem s) batch n_hid Sg Lg Zg Sm Lm Zm)
    as [mem' [El [Sm' [Lm' Zm']]]].
  rewrite El.
  destruct (Hh (st_h2o s) batch Ih) as [h [o [Eo [Ih' [So [Lo Zo]]]]]].
  rewrite Eo.
  eexists. split; [reflexivity|]. split.
  - unfold silent_state. cbn. repeat split; auto.
  - exists o. cbn. repeat split; auto.
Qed.

Lemma time_loop_silent (ts : list nat) (s : loop_state L) :
  Forall (fun t => (t < steps)%nat) ts -> silent_state I_rz I_h batch n_hid s ->
  exists s' : loop_state L,
    time_loop (zeros [batch; steps; n_in]) ts s = (s', None) /\
    silent_state I_rz I_h batch n_hid s' /\
    (ts <> [] -> zero_output batch n_out (st_o_input s')).
Proof.
  intros Hts. revert s. induction Hts as [|t ts Ht _ IH]; intros s Hs.
  - exists s. cbn [time_loop].
    split; [reflexivity|]. split; [exact Hs|]. intros Hn. now contradiction Hn.
  - destruct (loop_body_silent t s Ht Hs) as [s1 [E1 [Hs1 Ho1]]].
    destruct (IH s1 Hs1) as [s2 [E2 [Hs2 Ho2]]].
    exists s2. cbn [time_loop]. rewrite E1, E2.
    split; [reflexivity|]. split; [exact Hs2|]. intros _.
    destruct ts as [|t' ts']; [|apply Ho2; discriminate].
    cbn [time_loop] in E2. injection E2 as <-. exact Ho1.
Qed.

Lemma encode_zeros :
  LIF_mem_update (zeros [batch; steps; n_in]) (zeros [batch; steps; n_in]) (zeros [batch; steps; n_in])
  = Ok (tmap membrane_grid (zeros [batch; steps; n_in]), zeros [batch; steps; n_in]).
Proof.
  rewrite LIF_mem_update_values by reflexivity.
  unfold zeros, tmap. cbn [shape values].
  rewrite !zip_with3_repeat_all, map_repeat.
  rewrite lif_mem_from_rest, lif_spike_from_rest.
  reflexivity.
Qed.

(** A cell whose two layers map zeros to zeros, run on an all-zero input
    of at least one time step with the default hidden state. *)
Lemma spiking_forward_silent (RZGate h2o : L) :
  (0 < steps)%nat -> I_rz RZGate -> I_h h2o ->
  exists (rz h : L) (out : tensor Q),
    spiking_forward n_hid RZGate h2o (zeros [batch; steps; n_in]) None = (rz, h, Output out) /\
    I_rz rz /\ I_h h /\
    shape out = [batch; n_out] /\ List.length (values out) = (batch * n_out)%nat /\
    Forall (fun v => v == 0) (values out).
Proof.
  intros HT Irz Ih. unfold spiking_forward, cell_prelude, size.
  cbn [zeros shape nth_error bind].
  fold (zeros [batch; steps; n_in]). rewrite encode_zeros. cbn [bind snd].
  assert (Hs0 : silent_state I_rz I_h batch n_hid
                  (mkLoop RZGate h2o (zeros [batch; n_hid]) (zeros [batch; n_hid]) (zeros [batch; n_hid]) None)).
  { unfold silent_state.
    cbn [st_RZGate st_h2o st_hidden_spike st_RZgate_mem st_RZgate_spike].
    split; [exact Irz|]. split; [exact Ih|]. split; [reflexivity|].
    split; [reflexivity|]. unfold zeros at 1 2. cbn [values].
    split; [now rewrite repeat_length, numel_2|].
    split; [apply Forall_zero_repeat | reflexivity]. }
  assert (Hts : Forall (fun t => (t < steps)%nat) (seq 0 steps)).
  { apply Forall_forall. intros t Hin. apply in_seq in Hin. lia. }
  destruct (time_loop_silent (seq 0 steps) _ Hts Hs0) as [s' [E [Hs' Ho]]].
  rewrite E.
  destruct Ho as [out [Eo [So [Lo Zo]]]].
  { destruct steps; [lia | discriminate]. }
  destruct Hs' as [Irz' [Ih' _]].
  exists (st_RZGate s'), (st_h2o s'), out. rewrite Eo. repeat split; auto.
Qed.

End SilentLoop.

(** A cell run on an input without time steps: the loop body never runs. *)
Lemma spiking_forward_no_step {L : Type} `{Layer L} (hidden_size : nat) (RZGate h2o : L)
    (x : tensor Q) (hidden_spike : option (tensor Q)) (d0 d2 : nat) :
  shape x = [d0; 0%nat; d2] ->
  spiking_forward hidden_size RZGate h2o x hidden_spike
  = (RZGate, h2o, UnboundLocalError).
Proof.
  intros Hs. unfold spiking_forward, cell_prelude, size. rewrite Hs.
  destruct hidden_spike; cbn [nth_error bind];
    rewrite LIF_mem_update_values by (cbn [zeros shape]; congruence);
    reflexivity.
Qed.


(** X15: an [SGRU] without biases, run on an all-zero input of at least
    one time step with the default hidden state, never spikes: the call
    returns a tensor of shape [(batch, output_size)] whose elements are all
    equal to zero. *)
Theorem SGRU_silent_on_zero_input (hidden_size input_size output_size batch steps : nat)
    (RZGate h2o : nn_Linear) :
  (0 < steps)%nat ->
  lin_bias RZGate = None ->
  shape (lin_weight RZGate) = [hidden_size; (input_size + hidden_size)%nat] ->
  lin_bias h2o = None ->
  shape (lin_weight h2o) = [output_size; hidden_size] ->
  exists out : tensor Q,
    SGRU_forward hidden_size RZGate h2o (zeros [batch; steps; input_size]) None
    = Output out /\
    shape out = [batch; output_size] /\
    List.length (values out) = (batch * output_size)%nat /\
    Forall (fun v => v == 0) (values out).
Proof.
  intros HT Hb1 Hw1 Hb2 Hw2.
  destruct (spiking_forward_silent _ _ input_size hidden_size output_size batch steps
              (nn_Linear_zero_preserving hidden_size (input_size + hidden_size))
              (nn_Linear_zero_preserving output_size hidden_size)
              RZGate h2o HT (conj Hb1 Hw1) (conj Hb2 Hw2))
    as [rz [h [out [E [_ [_ [Hs [Hl Hz]]]]]]]].
  exists out. unfold SGRU_forward. rewrite E. repeat split; auto.
Qed.

Lemma SGRU_silent_on_zero_input_witness :
  let RZGate := mkLinear (mkTensor [2; 3]%nat [1; 0.5; 0.25; -1; 2; 1]) None in
  let h2o := mkLinear (mkTensor [1; 2]%nat [1; 2]) None in
  (0 < 2)%nat /\
  lin_bias RZGate = None /\
  shape (lin_weight RZGate) = [2%nat; (1 + 2)%nat] /\
  lin_bias h2o = None /\
  shape (lin_weight h2o) = [1%nat; 2%nat] /\
  exists out : tensor Q,
    SGRU_forward 2 RZGate h2o (zeros [1; 2; 1]%nat) None = Output out /\
    shape out = [1; 1]%nat /\
    List.length (values out) = (1 * 1)%nat /\
    Forall (fun v => v == 0) (values out).
Proof.
  intros RZGate h2o.
  split; [lia|]. repeat (split; [reflexivity|]).
  apply (SGRU_silent_on_zero_input 2 1 1 1 2 RZGate h2o); try reflexivity. lia.
Defined.

(** X16: an [LSGRU] without biases, run on an all-zero input of at least
    one time step with the default hidden state, never spikes: the call
    returns a tensor of shape [(batch, output_size)] whose elements are all
    equal to zero, and it leaves both layers without bias and with the
    shadow weights they had (or, on a first call, their initial weights). *)
Theorem LSGRU_silent_on_zero_input (hidden_size input_size output_size batch steps : nat)
    (RZGate h2o : BinarizeLinear) :
  (0 < steps)%nat ->
  bias RZGate = None ->
  shape (shadow (weight RZGate)) = [hidden_size; (input_size + hidden_size)%nat] ->
  bias h2o = None ->
  shape (shadow (weight h2o)) = [output_size; hidden_size] ->
  exists (rz h : BinarizeLinear) (out : tensor Q),
    LSGRU_forward hidden_size RZGate h2o (zeros [batch; steps; input_size]) None
    = (rz, h, Output out) /\
    shadow (weight rz) = shadow (weight RZGate) /\
    shadow (weight h) = shadow (weight h2o) /\
    shape out = [batch; output_size] /\
    List.length (values out) = (batch * output_size)%nat /\
    Forall (fun v => v == 0) (values out).
Proof.
  intros HT Hb1 Hw1 Hb2 Hw2.
  destruct (spiking_forward_silent _ _ input_size hidden_size output_size batch steps
              (BinarizeLinear_zero_preserving _ _ _ Hw1)
              (BinarizeLinear_zero_preserving _ _ _ Hw2)
              RZGate h2o HT (conj Hb1 eq_refl) (conj Hb2 eq_refl))
    as [rz [h [out [E [[_ S1] [[_ S2] [Hs [Hl Hz]]]]]]]].
  exists rz, h, out. unfold LSGRU_forward. rewrite E. repeat split; auto.
Qed.

Lemma LSGRU_silent_on_zero_input_witness :
  let RZGate := mkBinarizeLinear
                  (mkParameter (mkTensor [2; 3]%nat [1; 0.5; 0.25; -1; 2; 1]) None)
                  None in
  let h2o := mkBinarizeLinear (mkParameter (mkTensor [1; 2]%nat [1; 5]) None) None in
  (0 < 2)%nat /\
  bias RZGate = None /\
  shape (shadow (weight RZGate)) = [2%nat; (1 + 2)%nat] /\
  bias h2o = None /\
  shape (shadow (weight h2o)) = [1%nat; 2%nat] /\
  exists (rz h : BinarizeLinear) (out : tensor Q),
    LSGRU_forward 2 RZGate h2o (zeros [1; 2; 1]%nat) None = (rz, h, Output out) /\
    shadow (weight rz) = shadow (weight RZGate) /\
    shadow (weight h) = shadow (weight h2o) /\
    shape out = [1; 1]%nat /\
    List.length (values out) = (1 * 1)%nat /\
    Forall (fun v => v == 0) (values out).
Proof.
  intros RZGate h2o.
  split; [lia|]. repeat (split; [reflexivity|]).
  apply (LSGRU_silent_on_zero_input 2 1 1 1 2 RZGate h2o); try reflexivity. lia.
Defined.

(** X17: on an input without time steps (shape [(batch, 0, features)]) the
    loop body never runs, so [return o_input] fails: [SGRU.forward] and
    [LSGRU.forward] end in [UnboundLocalError], whatever [hidden_spike] is,
    and the layers of [LSGRU] are left untouched. *)
Theorem cells_fail_without_time_steps (hidden_size d0 d2 : nat) (x : tensor Q)
    (hidden_spike : option (tensor Q)) (RZGate h2o : nn_Linear)
    (RZGate' h2o' : BinarizeLinear) :
  shape x = [d0; 0%nat; d2] ->
  SGRU_forward hidden_size RZGate h2o x hidden_spike = UnboundLocalError /\
  LSGRU_forward hidden_size RZGate' h2o' x hidden_spike
  = (RZGate', h2o', UnboundLocalError).
Proof.
  intros Hs. unfold SGRU_forward, LSGRU_forward.
  rewrite !(spiking_forward_no_step hidden_size _ _ x hidden_spike d0 d2 Hs).
  split; reflexivity.
Qed.

Lemma cells_fail_without_time_steps_witness :
  let x := mkTensor [3; 0; 4]%nat [] in
  let l := mkLinear (mkTensor [2; 6]%nat []) None in
  let b := mkBinarizeLinear (mkParameter (mkTensor [2; 6]%nat []) None) None in
  shape x = [3; 0; 4]%nat /\
  SGRU_forward 2 l l x None = UnboundLocalError /\
  LSGRU_forward 2 b b x None = (b, b, UnboundLocalError).
Proof.
  intros x l b. split; [reflexivity|].
  apply (cells_fail_without_time_steps 2 3 4 x None l l b b). reflexivity.
Defined.

End CellBehaviour.

(** ** Hex packing: concatenation, reading back, bad digits *)

Section HexBehaviour.

Lemma Get_HexData_bits (t : tensor Q) :
  binary_valued t -> Get_HexData t = Ok (hex_packing (map bit_of (values t))).
Proof.
  intros Hb. unfold binary_valued in Hb. unfold Get_HexData, tmap. cbn [values].
  rewrite (to_int_bits _ Hb), padding_bits, group4_map.
  rewrite hex_loop_bits by apply group4_length4.
  reflexivity.
Qed.

Lemma group4_app {A : Type} (l l' : list A) :
  (List.length l mod 4 = 0)%nat -> group4 (l ++ l') = group4 l ++ group4 l'.
Proof.
  induction l as [| | | |a b c d l IH] using list_ind4; cbn [List.length];
    try (cbn; discriminate).
  - reflexivity.
  - intros H. cbn [app group4]. rewrite IH; [reflexivity|].
    replace (S (S (S (S (List.length l))))) with (List.length l + 1 * 4)%nat in H by lia.
    now rewrite Nat.Div0.mod_add in H.
Qed.

Lemma pad4_app (l l' : list bool) :
  (List.length l mod 4 = 0)%nat -> pad4 (l ++ l') = l ++ pad4 l'.
Proof.
  intros H. unfold pad4. rewrite length_app, <- app_assoc. do 3 f_equal.
  rewrite Nat.Div0.add_mod, H. cbn [Nat.add]. now rewrite Nat.Div0.mod_mod.
Qed.

Lemma pad4_multiple (l : list bool) :
  (List.length l mod 4 = 0)%nat -> pad4 l = l.
Proof. intros H. unfold pad4. rewrite H. cbn. apply app_nil_r. Qed.

Lemma hex_packing_app (l l' : list bool) :
  (List.length l mod 4 = 0)%nat ->
  hex_packing (l ++ l') = hex_packing l' ++ hex_packing l.
Proof.
  intros H. unfold hex_packing.
  rewrite (pad4_app l l' H), (pad4_multiple l H), (group4_app l (pad4 l') H).
  now rewrite map_app, rev_app_distr.
Qed.

(** X18: packing a concatenation.  When a binary block [t1] of a multiple
    of 4 elements is followed by a binary block [t2], the packing of the
    whole is the packing of [t2] followed by the packing of [t1]: earlier
    elements come later in the output, nibble by nibble. *)
Theorem Get_HexData_concatenation (t t1 t2 : tensor Q) :
  binary_valued t1 -> binary_valued t2 ->
  values t = values t1 ++ values t2 ->
  (List.length (values t1) mod 4 = 0)%nat ->
  exists h1 h2 : list string,
    Get_HexData t1 = Ok h1 /\ Get_HexData t2 = Ok h2 /\
    Get_HexData t = Ok (h2 ++ h1).
Proof.
  intros H1 H2 Hv Hm.
  assert (Hb : binary_valued t).
  { unfold binary_valued in *. rewrite Hv. apply Forall_app. now split. }
  rewrite (Get_HexData_bits t Hb), (Get_HexData_bits t1 H1), (Get_HexData_bits t2 H2).
  do 2 eexists. split; [reflexivity|]. split; [reflexivity|].
  rewrite Hv, map_app, hex_packing_app; [reflexivity|].
  now rewrite length_map.
Qed.

Lemma Get_HexData_concatenation_witness :
  let t1 := mkTensor [4%nat] [1; 0; 1; 0]%Q in
  let t2 := mkTensor [3%nat] [1; 1; 0]%Q in
  let t := mkTensor [7%nat] [1; 0; 1; 0; 1; 1; 0]%Q in
  binary_valued t1 /\ binary_valued t2 /\
  values t = values t1 ++ values t2 /\
  (List.length (values t1) mod 4 = 0)%nat /\
  exists h1 h2 : list string,
    Get_HexData t1 = Ok h1 /\ Get_HexData t2 = Ok h2 /\
    Get_HexData t = Ok (h2 ++ h1).
Proof.
  intros t1 t2 t.
  assert (H1 : binary_valued t1).
  { unfold binary_valued, t1. cbn [values].
    repeat constructor; (left; reflexivity) || (right; reflexivity). }
  assert (H2 : binary_valued t2).
  { unfold binary_valued, t2. cbn [values].
    repeat constructor; (left; reflexivity) || (right; reflexivity). }
  split; [exact H1|]. split; [exact H2|].
  split; [reflexivity|]. split; [reflexivity|].
  apply (Get_HexData_concatenation t t1 t2 H1 H2); reflexivity.
Defined.

Lemma nibble_round_trip (g : list bool) :
  List.length g = 4%nat -> nibble_bits (digit_value (hex_digit (nibble_value g))) = g.
Proof.
  destruct g as [|a [|b [|c [|d [|? ?]]]]]; try discriminate. intros _.
  destruct a, b, c, d; vm_compute; reflexivity.
Qed.

Lemma concat_group4 {A : Type} (l : list A) :
  (List.length l mod 4 = 0)%nat -> concat (group4 l) = l.
Proof.
  induction l as [| | | |a b c d l IH] using list_ind4; cbn [List.length];
    try (cbn; discriminate).
  - reflexivity.
  - intros H. cbn [group4 concat app]. rewrite IH; [reflexivity|].
    replace (S (S (S (S (List.length l))))) with (List.length l + 1 * 4)%nat in H by lia.
    now rewrite Nat.Div0.mod_add in H.
Qed.

Lemma pad4_length_mod (l : list bool) : (List.length (pad4 l) mod 4 = 0)%nat.
Proof.
  rewrite pad4_length, Nat.mul_comm. apply Nat.Div0.mod_mul.
Qed.

Lemma bits_of_hex_packing (bs : list bool) : bits_of_hex (hex_packing bs) = pad4 bs.
Proof.
  unfold bits_of_hex, hex_packing. rewrite rev_involutive.
  rewrite flat_map_concat_map, map_map.
  rewrite <- (concat_group4 (pad4 bs) (pad4_length_mod bs)) at 2.
  f_equal.
  pose proof (group4_length4 (pad4 bs)) as H4.
  induction H4 as [|g gs Hg _ IH]; cbn [map]; [reflexivity|].
  now rewrite IH, (nibble_round_trip g Hg).
Qed.

(** X19: the packing loses nothing but the amount of padding: reading the
    returned digits back ([bits_of_hex]) gives the bits of the tensor,
    padded with zero bits to a multiple of 4; so two binary tensors with
    the same packing have the same bits up to that padding. *)
Theorem Get_HexData_reads_back (t : tensor Q) :
  binary_valued t ->
  exists h : list string,
    Get_HexData t = Ok h /\
    bits_of_hex h = pad4 (map bit_of (values t)) /\
    forall t' : tensor Q,
      binary_valued t' -> Get_HexData t' = Ok h ->
      pad4 (map bit_of (values t')) = pad4 (map bit_of (values t)).
Proof.
  intros Hb. rewrite (Get_HexData_bits t Hb). eexists. split; [reflexivity|].
  split; [apply bits_of_hex_packing|].
  intros t' Hb' E. rewrite (Get_HexData_bits t' Hb') in E. injection E as E.
  rewrite <- (bits_of_hex_packing (map bit_of (values t'))), E.
  apply bits_of_hex_packing.
Qed.

Lemma Get_HexData_reads_back_witness :
  let t := mkTensor [5%nat] [1; 1; 0; 1; 1]%Q in
  binary_valued t /\
  exists h : list string,
    Get_HexData t = Ok h /\
    bits_of_hex h = pad4 (map bit_of (values t)) /\
    forall t' : tensor Q,
      binary_valued t' -> Get_HexData t' = Ok h ->
      pad4 (map bit_of (values t')) = pad4 (map bit_of (values t)).
Proof.
  intros t.
  assert (Hb : binary_valued t).
  { unfold binary_valued, t. cbn [values].
    repeat constructor; (left; reflexivity) || (right; reflexivity). }
  split; [exact Hb|].
  apply (Get_HexData_reads_back t Hb).
Defined.


Lemma to_int_decimal_digit (v : Q) (d : Z) :
  (0 <= d <= 9)%Z -> (v == inject_Z d)%Q -> to_int v = d.
Proof.
  intros Hd Hv. unfold to_int.
  assert (Hle : Qle_bool 0 v = true).
  { apply Qle_bool_iff. rewrite Hv. change 0%Q with (inject_Z 0).
    rewrite <- Zle_Qle. lia. }
  rewrite Hle, (Qfloor_comp v _ Hv), Qfloor_Z.
  rewrite Z.mod_small by lia. lia.
Qed.

(** The text of a decimal digit is one character, which is a binary digit
    exactly for 0 and 1 and never a minus sign. *)
Lemma py_str_decimal_digit (d : Z) :
  (0 <= d <= 9)%Z ->
  exists c : ascii,
    py_str d = String c EmptyString /\
    Ascii.eqb c "-" = false /\
    Ascii.eqb c "0" = (d =? 0)%Z /\
    Ascii.eqb c "1" = (d =? 1)%Z.
Proof.
  intros Hd.
  assert (E : (d = 0 \/ d = 1 \/ d = 2 \/ d = 3 \/ d = 4 \/ d = 5 \/ d = 6 \/ d = 7
               \/ d = 8 \/ d = 9)%Z) by lia.
  repeat (destruct E as [->|E]; [eexists; repeat split; reflexivity|]).
  subst. eexists; repeat split; reflexivity.
Qed.

Lemma concat_one_char (c : ascii) (l : list string) :
  String.concat "" (String c EmptyString :: l) = String c (String.concat "" l).
Proof. destruct l; reflexivity. Qed.

Lemma bin_digits_decimal (ds : list Z) (acc : Z) :
  Forall (fun d => 0 <= d <= 9)%Z ds ->
  bin_digits acc (String.concat "" (map py_str ds))
  = if forallb (fun d => d <=? 1)%Z ds
    then Ok (fold_left (fun a d => 2 * a + d)%Z ds acc)
    else Raise ValueError.
Proof.
  intros H. revert acc. induction H as [|d ds Hd _ IH]; intros acc; [reflexivity|].
  destruct (py_str_decimal_digit d Hd) as [c [Ec [_ [E0 E1]]]].
  cbn [map forallb fold_left]. rewrite Ec, concat_one_char. cbn [bin_digits].
  rewrite E0, E1.
  destruct (Z.eqb_spec d 0) as [->|N0].
  { change (0 <=? 1)%Z with true. cbn [andb]. rewrite Z.add_0_r. apply IH. }
  destruct (Z.eqb_spec d 1) as [->|N1].
  { change (1 <=? 1)%Z with true. cbn [andb]. apply IH. }
  destruct (Z.leb_spec d 1); [lia|reflexivity].
Qed.

Lemma hex_of_group_decimal (g : list Z) :
  g <> [] -> Forall (fun d => 0 <= d <= 9)%Z g ->
  (forallb (fun d => d <=? 1)%Z g = true -> exists s, hex_of_group g = Ok s) /\
  (forallb (fun d => d <=? 1)%Z g = false -> hex_of_group g = Raise ValueError).
Proof.
  intros Hne Hg. unfold hex_of_group.
  assert (E : py_int_base2 (String.concat "" (map py_str g))
              = bin_digits 0 (String.concat "" (map py_str g))).
  { destruct g as [|d g]; [congruence|]. inversion Hg; subst.
    destruct (py_str_decimal_digit d) as [c [Ec [Em _]]]; [assumption|].
    cbn [map]. rewrite Ec, concat_one_char. unfold py_int_base2. now rewrite Em. }
  rewrite E, (bin_digits_decimal g 0 Hg).
  split; intros ->; cbn [bind]; [eexists|]; reflexivity.
Qed.

Lemma hex_loop_decimal (groups : list (list Z)) :
  Forall (fun g => g <> [] /\ Forall (fun d => 0 <= d <= 9)%Z g) groups ->
  Exists (fun g => forallb (fun d => d <=? 1)%Z g = false) groups ->
  hex_loop groups = Raise ValueError.
Proof.
  intros Hg. induction Hg as [|g groups [Hne Hd] _ IH]; intros Hex;
    [inversion Hex|].
  cbn [hex_loop].
  destruct (hex_of_group_decimal g Hne Hd) as [Hok Hbad].
  destruct (forallb (fun d => d <=? 1)%Z g) eqn:Eg.
  - destruct (Hok eq_refl) as [s ->]. cbn [bind].
    inversion Hex as [? ? Hh|? ? Ht]; subst; [congruence|].
    now rewrite (IH Ht).
  - now rewrite (Hbad eq_refl).
Qed.

Lemma padded_length_mod {A : Type} (l : list A) (a : A) :
  (List.length (if negb (List.length l mod 4 =? 0)%nat
                then l ++ repeat a (4 - List.length l mod 4)
                else l) mod 4 = 0)%nat.
Proof.
  destruct (List.length l mod 4 =? 0)%nat eqn:E; cbn [negb].
  - now apply Nat.eqb_eq.
  - apply Nat.eqb_neq in E. rewrite length_app, repeat_length.
    pose proof (Nat.div_mod_eq (List.length l) 4) as Hq.
    pose proof (Nat.mod_upper_bound (List.length l) 4) as Hr.
    replace (List.length l + (4 - List.length l mod 4))%nat
      with ((List.length l / 4 + 1) * 4)%nat by lia.
    apply Nat.Div0.mod_mul.
Qed.

(** X20: a digit other than 0 and 1 is refused.  When every element of the
    tensor is one of the integers 0 to 9 and at least one of them is 2 or
    more, [Get_HexData] raises [ValueError] (from [int(binary_str, 2)]). *)
Theorem Get_HexData_rejects_digits (t : tensor Q) :
  decimal_digits t ->
  Exists (fun v => 2 <= v)%Q (values t) ->
  Get_HexData t = Raise ValueError.
Proof.
  intros Hd Hex. unfold Get_HexData, tmap. cbn [values].
  set (ds := map to_int (values t)).
  assert (Hds : Forall (fun d => 0 <= d <= 9)%Z ds).
  { unfold ds. apply Forall_forall. intros z Hz. apply in_map_iff in Hz.
    destruct Hz as [v [<- Hv]]. unfold decimal_digits in Hd.
    rewrite Forall_forall in Hd. destruct (Hd v Hv) as [d [Hr He]].
    now rewrite (to_int_decimal_digit v d Hr He). }
  assert (Hbad : exists z, In z ds /\ (2 <= z)%Z).
  { apply Exists_exists in Hex. destruct Hex as [v [Hv H2]].
    unfold decimal_digits in Hd. rewrite Forall_forall in Hd.
    destruct (Hd v Hv) as [d [Hr He]].
    exists d. split.
    - unfold ds. apply in_map_iff. exists v.
      split; [now apply to_int_decimal_digit | exact Hv].
    - rewrite He in H2. change 2%Q with (inject_Z 2) in H2.
      now rewrite <- Zle_Qle in H2. }
  set (padded := if negb (List.length ds mod 4 =? 0)%nat
                 then ds ++ repeat 0%Z (4 - List.length ds mod 4)
                 else ds).
  assert (Hpd : Forall (fun d => 0 <= d <= 9)%Z padded).
  { unfold padded. destruct (negb (List.length ds mod 4 =? 0)%nat); [|exact Hds].
    apply Forall_app. split; [exact Hds|].
    apply Forall_forall. intros z Hz. apply repeat_spec in Hz. lia. }
  assert (Hpb : exists z, In z padded /\ (2 <= z)%Z).
  { destruct Hbad as [z [Hz H2]]. exists z. split; [|exact H2].
    unfold padded. destruct (negb (List.length ds mod 4 =? 0)%nat); [|exact Hz].
    apply in_or_app. now left. }
  assert (Hc : concat (group4 padded) = padded)
    by (apply concat_group4, padded_length_mod).
  rewrite hex_loop_decimal; [reflexivity| |].
  - apply Forall_forall. intros g Hg. apply in_map_iff in Hg.
    destruct Hg as [g0 [<- Hg0]].
    pose proof (group4_length4 padded) as H4. rewrite Forall_forall in H4.
    specialize (H4 g0 Hg0). split.
    + intros E. apply (f_equal (@List.length Z)) in E.
      rewrite length_rev, H4 in E. discriminate.
    + apply Forall_rev. rewrite Forall_forall in Hpd |- *.
      intros z Hz. apply Hpd. rewrite <- Hc. apply in_concat. eauto.
  - destruct Hpb as [z [Hz H2]]. rewrite <- Hc in Hz. apply in_concat in Hz.
    destruct Hz as [g0 [Hg0 Hz]].
    apply Exists_exists. exists (rev g0). split; [now apply in_map|].
    destruct (forallb (fun d => d <=? 1)%Z (rev g0)) eqn:Ef; [|reflexivity].
    rewrite forallb_forall in Ef. specialize (Ef z).
    rewrite <- in_rev in Ef. specialize (Ef Hz).
    apply Z.leb_le in Ef. lia.
Qed.

Lemma Get_HexData_rejects_digits_witness :
  let t := mkTensor [5%nat] [1; 0; 2; 1; 1]%Q in
  decimal_digits t /\
  Exists (fun v => 2 <= v)%Q (values t) /\
  Get_HexData t = Raise ValueError.
Proof.
  intros t.
  assert (Hd : decimal_digits t).
  { unfold decimal_digits, t. cbn [values].
    repeat (constructor;
            [first [ exists 0%Z; split; [lia | reflexivity]
                   | exists 1%Z; split; [lia | reflexivity]
                   | exists 2%Z; split; [lia | reflexivity] ] |]).
    constructor. }
  assert (Hx : Exists (fun v => 2 <= v)%Q (values t)).
  { unfold t. cbn [values].
    apply Exists_cons_tl, Exists_cons_tl, Exists_cons_hd. discriminate. }
  split; [exact Hd|]. split; [exact Hx|].
  apply (Get_HexData_rejects_digits t Hd Hx).
Defined.

End HexBehaviour.

(** ** Padding and trimming of the time axis *)

Section PadTrimBehaviour.
Local Open Scope nat_scope.

Lemma nth_error_flat_map_rows {A : Type} (f : nat -> list A) (len n start r j : nat) :
  (forall k, start <= k < start + n -> List.length (f k) = len) ->
  r < n -> j < len ->
  nth_error (flat_map f (seq start n)) (r * len + j) = nth_error (f (start + r)) j.
Proof.
  revert start r. induction n as [|n IH]; intros start r Hf Hr Hj; [lia|].
  cbn [seq flat_map].
  assert (L0 : List.length (f start) = len) by (apply Hf; lia).
  destruct r as [|r].
  - rewrite Nat.add_0_r. cbn [Nat.mul Nat.add].
    apply nth_error_app1. lia.
  - rewrite nth_error_app2 by (rewrite L0; cbn [Nat.mul]; lia).
    replace (S r * len + j - List.length (f start)) with (r * len + j)
      by (rewrite L0; cbn [Nat.mul]; lia).
    rewrite IH; [|intros; apply Hf; lia|lia|lia].
    f_equal. f_equal. lia.
Qed.

Lemma row_length {A : Type} (cols k : nat) (l : list A) :
  k * cols + cols <= List.length l -> List.length (row cols k l) = cols.
Proof.
  intros H. unfold row. rewrite length_firstn, length_skipn. lia.
Qed.

Lemma row_nth_error {A : Type} (cols k j : nat) (l : list A) :
  j < cols -> nth_error (row cols k l) j = nth_error l (k * cols + j).
Proof.
  intros H. unfold row. rewrite nth_error_firstn.
  apply Nat.ltb_lt in H. rewrite H. apply nth_error_skipn.
Qed.

Lemma rows_fit (rows cols r : nat) : r < rows -> r * cols + cols <= rows * cols.
Proof.
  intros H. replace (r * cols + cols) with ((r + 1) * cols) by lia.
  apply Nat.mul_le_mono_r. lia.
Qed.


(** X21: the pad/trim statements give the time axis the length
    [max_length].  On a three-dimensional, well-shaped tensor
    [(channels, mels, time)] they return a well-shaped tensor
    [(channels, mels, max_length)]; every row keeps its first
    [min(time, max_length)] entries in place, and the entries after them are
    zeros. *)
Theorem pad_or_trim_fixed_length (waveform : tensor Q) (c m t max_length : nat) :
  shape waveform = [c; m; t] -> well_shaped waveform ->
  exists out : tensor Q,
    pad_or_trim waveform max_length = Ok out /\
    shape out = [c; m; max_length] /\
    well_shaped out /\
    forall r j : nat,
      r < c * m -> j < max_length ->
      nth_error (values out) (r * max_length + j)
      = if j <? t then nth_error (values waveform) (r * t + j) else Some 0%Q.
Proof.
  intros Hs Hw. unfold well_shaped in Hw. rewrite Hs, numel_3 in Hw.
  unfold pad_or_trim. rewrite Hs. cbn [rev app].
  destruct (t <? max_length) eqn:E1; [|destruct (max_length <? t) eqn:E2].
  - (* padding *)
    apply Nat.ltb_lt in E1.
    exists (pad_last waveform t (max_length - t)).
    assert (Lf : forall k, 0 <= k < 0 + c * m ->
                 List.length (row t k (values waveform) ++ repeat 0%Q (max_length - t))
                 = max_length).
    { intros k Hk. rewrite length_app, repeat_length, row_length; [lia|].
      rewrite Hw. apply rows_fit. lia. }
    unfold pad_last, well_shaped. rewrite Hs. cbn [removelast app shape values].
    rewrite numel_2, numel_3.
    replace (t + (max_length - t)) with max_length by lia.
    split; [reflexivity|]. split; [reflexivity|]. split.
    + rewrite (flat_map_constant_length (c := max_length)).
      * now rewrite length_seq.
      * intros k Hk. apply in_seq in Hk. now apply Lf.
    + intros r j Hr Hj.
      rewrite (nth_error_flat_map_rows _ max_length (c * m) 0 r j Lf Hr Hj).
      cbn [Nat.add].
      assert (Lr : List.length (row t r (values waveform)) = t)
        by (apply row_length; rewrite Hw; now apply rows_fit).
      destruct (j <? t) eqn:Ej.
      * apply Nat.ltb_lt in Ej.
        rewrite nth_error_app1 by lia. now apply row_nth_error.
      * apply Nat.ltb_ge in Ej.
        rewrite nth_error_app2 by lia. apply nth_error_repeat. lia.
  - (* trimming *)
    apply Nat.ltb_lt in E2.
    unfold trim_third. rewrite Hs. unfold numel. cbn [fold_right].
    rewrite Nat.min_r by lia. rewrite !Nat.mul_1_r.
    assert (Lf : forall k, 0 <= k < 0 + c * m ->
                 List.length (firstn max_length (skipn (k * t) (values waveform)))
                 = max_length).
    { intros k Hk. rewrite length_firstn, length_skipn, Hw.
      pose proof (rows_fit (c * m) t k). lia. }
    eexists. split; [reflexivity|]. unfold well_shaped. cbn [shape values].
    split; [reflexivity|]. split.
    + rewrite (flat_map_constant_length (c := max_length)).
      * rewrite length_seq. unfold numel. cbn [fold_right]. lia.
      * intros k Hk. apply in_seq in Hk. now apply Lf.
    + intros r j Hr Hj.
      rewrite (nth_error_flat_map_rows _ max_length (c * m) 0 r j Lf Hr Hj).
      cbn [Nat.add]. rewrite nth_error_firstn, nth_error_skipn.
      apply Nat.ltb_lt in Hj as Hjb. rewrite Hjb.
      assert (Hjt : (j <? t) = true) by (apply Nat.ltb_lt; lia).
      now rewrite Hjt.
  - (* already of the right length *)
    apply Nat.ltb_ge in E1, E2. assert (t = max_length) by lia. subst t.
    exists waveform. split; [reflexivity|]. split; [exact Hs|]. split.
    + unfold well_shaped. now rewrite Hs, numel_3.
    + intros r j Hr Hj. apply Nat.ltb_lt in Hj. now rewrite Hj.
Qed.

Lemma pad_or_trim_fixed_length_witness :
  let waveform := mkTensor [1; 2; 3] [1; 2; 3; 4; 5; 6]%Q in
  shape waveform = [1; 2; 3] /\ well_shaped waveform /\
  exists out : tensor Q,
    pad_or_trim waveform 2 = Ok out /\
    shape out = [1; 2; 2] /\
    well_shaped out /\
    forall r j : nat,
      r < 1 * 2 -> j < 2 ->
      nth_error (values out) (r * 2 + j)
      = if j <? 3 then nth_error (values waveform) (r * 3 + j) else Some 0%Q.
Proof.
  intros waveform. split; [reflexivity|]. split; [reflexivity|].
  apply (pad_or_trim_fixed_length waveform 1 2 3 2); reflexivity.
Defined.

(** X22: the trimming branch indexes three axes: on a tensor of one or two
    dimensions whose last dimension exceeds [max_length] the statements
    raise [IndexError], while a shorter or equal last dimension is padded or
    left alone without error. *)
Theorem pad_or_trim_needs_three_axes (waveform : tensor Q) (max_length last : nat)
    (lead : list nat) :
  shape waveform = lead ++ [last] ->
  List.length lead < 2 ->
  (max_length < last -> pad_or_trim waveform max_length = Raise IndexError) /\
  (last <= max_length -> exists out, pad_or_trim waveform max_length = Ok out).
Proof.
  intros Hs Hl. unfold pad_or_trim. rewrite Hs, rev_app_distr. cbn [rev app].
  split; intros H.
  - assert (E1 : (last <? max_length) = false) by (apply Nat.ltb_ge; lia).
    assert (E2 : (max_length <? last) = true) by (apply Nat.ltb_lt; lia).
    rewrite E1, E2. unfold trim_third. rewrite Hs.
    destruct lead as [|a [|b lead]]; cbn [List.length] in Hl; try lia; reflexivity.
  - destruct (last <? max_length) eqn:E1; [eexists; reflexivity|].
    assert (E2 : (max_length <? last) = false) by (apply Nat.ltb_ge; lia).
    rewrite E2. eexists; reflexivity.
Qed.

Lemma pad_or_trim_needs_three_axes_witness :
  let waveform := mkTensor [2; 3] [1; 2; 3; 4; 5; 6]%Q in
  shape waveform = [2] ++ [3] /\
  List.length [2] < 2 /\
  (2 < 3 -> pad_or_trim waveform 2 = Raise IndexError) /\
  (3 <= 2 -> exists out, pad_or_trim waveform 2 = Ok out).
Proof.
  intros waveform. split; [reflexivity|].
  assert (H : List.length [2] < 2) by (cbn; lia).
  split; [exact H|].
  apply (pad_or_trim_needs_three_axes waveform 2 3 [2]); [reflexivity|exact H].
Defined.

End PadTrimBehaviour.
